(** * tesmart-commands: the TESmart HDMI switch client

    A shallow embedding of the Go package [commands] and the properties of
    its frame codec, its parameter checks and its request/response
    correlation.

    The main development follows [tesmart-commands.go], the variant with
    the pending-request channel [sw].  Module [Part000] holds the variant
    with the context-based read loop, whose [isValidOutput] checks the
    length of the frame.  The third variant has the codec and the
    parameter checks of the first, and the [send] of the second.
    [connect] and the goroutine that reconnects are not modelled: a state
    is what [connect] has set up.

    Conventions.
    - A Go [byte] is a [Init.Byte.byte]; [byte(n)] is [byte.of_Z n], which
      keeps the low eight bits; byte subtraction wraps around.
    - A Go [[]byte] is a reference: a [slice] names a backing array in a
      [memory], so that aliasing between the package-level templates and
      the buffers handed around is visible.
    - A goroutine is a term of the free monad [go]; [step] executes one
      operation against the shared [state], and returns [None] when the
      operation blocks.  The connection is a scripted [net.Conn]: the
      script lists what each coming [Write] and [Read] call will answer.
    - Logging ([Debug], [Info], [Error]) has no effect on the state that
      is modelled, and is left out. *)

From Stdlib Require Import ZArith Lia.
From stdpp Require Import base list strings.
From coqutil Require Import Byte.
Import Init.Byte.

Open Scope Z_scope.

(** ** Values *)

Inductive error : Type :=
| errors_New (text : string)      (* errors.New(text) *)
| wrong_amount (bytesSent : Z)    (* fmt.Errorf("wrong amount of byte sent: %d. Expected 6", bytesSent) *)
| net_error (text : string).      (* an error returned by the connection *)

(** A slice is the index of its backing array. *)
Abbreviation slice := nat (only parsing).
Abbreviation memory := (list (list byte)) (only parsing).

(** [a - b] on bytes. *)
Definition byte_sub (a b : byte) : byte :=
  byte.of_Z (byte.unsigned a - byte.unsigned b).

(** What a [for] body tells its loop. *)
Inductive ctl : Type := Continue | Break.

(** ** Goroutines *)

Inductive go (R : Type) : Type :=
| Ret (r : R)
| Panic (msg : string)
| Make (n : nat) (k : slice -> go R)                     (* make([]byte, n) *)
| Copy (dst src : slice) (k : go R)                      (* copy(dst, src) *)
| Store (s : slice) (i : nat) (v : byte) (k : go R)      (* s[i] = v *)
| Index (s : slice) (i : nat) (k : byte -> go R)         (* s[i] *)
| Len (s : slice) (k : nat -> go R)                      (* len(s) *)
| ConnWrite (b : slice) (k : Z -> option error -> go R)  (* t.conn.Write(b) *)
| ConnRead (b : slice) (k : Z -> option error -> go R)   (* t.conn.Read(b) *)
| SendSw (k : go R)                                      (* t.sw <- true *)
| SelectSw (received otherwise : go R)                   (* select { case <-t.sw: ..; default: .. } *)
| SendResponses (s : slice) (k : go R)                   (* t.responses <- s *)
| RecvResponses (k : slice -> go R)                      (* <-t.responses *)
| SendPublic (s : slice) (k : go R)                      (* t.Responses <- s *)
| SendErr (e : error) (k : go R)                         (* t.err <- e *)
| Loop (body : go ctl) (k : go R).                       (* for { body } *)

Arguments Ret {R} r.
Arguments Panic {R} msg.
Arguments Make {R} n k.
Arguments Copy {R} dst src k.
Arguments Store {R} s i v k.
Arguments Index {R} s i k.
Arguments Len {R} s k.
Arguments ConnWrite {R} b k.
Arguments ConnRead {R} b k.
Arguments SendSw {R} k.
Arguments SelectSw {R} received otherwise.
Arguments SendResponses {R} s k.
Arguments RecvResponses {R} k.
Arguments SendPublic {R} s k.
Arguments SendErr {R} e k.
Arguments Loop {R} body k.

Fixpoint bind {A B : Type} (p : go A) (f : A -> go B) : go B :=
  match p with
  | Ret a => f a
  | Panic msg => Panic msg
  | Make n k => Make n (fun s => bind (k s) f)
  | Copy dst src k => Copy dst src (bind k f)
  | Store s i v k => Store s i v (bind k f)
  | Index s i k => Index s i (fun v => bind (k v) f)
  | Len s k => Len s (fun n => bind (k n) f)
  | ConnWrite b k => ConnWrite b (fun n e => bind (k n e) f)
  | ConnRead b k => ConnRead b (fun n e => bind (k n e) f)
  | SendSw k => SendSw (bind k f)
  | SelectSw r o => SelectSw (bind r f) (bind o f)
  | SendResponses s k => SendResponses s (bind k f)
  | RecvResponses k => RecvResponses (fun s => bind (k s) f)
  | SendPublic s k => SendPublic s (bind k f)
  | SendErr e k => SendErr e (bind k f)
  | Loop body k => Loop body (bind k f)
  end.

#[export] Instance go_ret : MRet go := @Ret.
#[export] Instance go_bind : MBind go := fun A B f p => bind p f.

(** The operations, as programs that return their result. *)
Definition make (n : nat) : go slice := Make n Ret.
Definition copy (dst src : slice) : go unit := Copy dst src (Ret tt).
Definition store (s : slice) (i : nat) (v : byte) : go unit := Store s i v (Ret tt).
Definition index (s : slice) (i : nat) : go byte := Index s i Ret.
Definition len (s : slice) : go nat := Len s Ret.
Definition conn_Write (b : slice) : go (Z * option error) :=
  ConnWrite b (fun n e => Ret (n, e)).
Definition conn_Read (b : slice) : go (Z * option error) :=
  ConnRead b (fun n e => Ret (n, e)).
Definition send_sw : go unit := SendSw (Ret tt).
Definition send_responses (s : slice) : go unit := SendResponses s (Ret tt).
Definition recv_responses : go slice := RecvResponses Ret.
Definition send_Responses (s : slice) : go unit := SendPublic s (Ret tt).
Definition send_err (e : error) : go unit := SendErr e (Ret tt).
Definition for_ever (body : go ctl) : go unit := Loop body (Ret tt).

(** [a && b] of Go: [b] is evaluated only when [a] holds. *)
Definition and_then (a b : go bool) : go bool :=
  a ≫= λ x : bool, if x then b else Ret false.
Infix "&&&" := and_then (at level 40, left associativity).

(** [s[i] == v] *)
Definition index_is (s : slice) (i : nat) (v : byte) : go bool :=
  b ← index s i; Ret (Byte.eqb b v).

(** ** The shared state *)

(** What happened on the connection and on the channels, oldest first. *)
Inductive event : Type :=
| Written (data : list byte) (bytesSent : Z) (err : option error)
    (* t.conn.Write(data) answered (bytesSent, err) *)
| WasRead (buffer : list byte) (read : Z) (err : option error)
    (* t.conn.Read(b) answered (read, err) and left buffer in b *)
| MarkerSet                      (* t.sw <- true went through *)
| MarkerCleared                  (* <-t.sw was taken by the select *)
| ToWaiter (frame : list byte)   (* t.responses <- frame went through *)
| ToObserver (frame : list byte) (* t.Responses <- frame went through *)
| Failure (e : error).           (* t.err <- e went through *)

(** The scripted connection: the answers of the coming [Write] calls, and
    the bytes and error of the coming [Read] calls.  A [Write] beyond the
    script accepts all its bytes; a [Read] beyond the script blocks. *)
Record connection : Type := mkConn {
  outgoing : list (Z * option error);
  incoming : list (list byte * option error)
}.

(** [tesmartSwitch] with the memory its slices point into.  Every channel
    is made with capacity 1 by [connect]. *)
Record state : Type := mkState {
  mem : memory;
  conn : connection;
  err : list error;
  responses : list slice;
  Responses : list slice;
  sw : list bool;
  trace : list event
}.

Definition capacity : nat := 1.

Definition set_mem (m : memory) (s : state) : state :=
  mkState m (conn s) (err s) (responses s) (Responses s) (sw s) (trace s).
Definition set_conn (c : connection) (s : state) : state :=
  mkState (mem s) c (err s) (responses s) (Responses s) (sw s) (trace s).
Definition set_err (c : list error) (s : state) : state :=
  mkState (mem s) (conn s) c (responses s) (Responses s) (sw s) (trace s).
Definition set_responses (c : list slice) (s : state) : state :=
  mkState (mem s) (conn s) (err s) c (Responses s) (sw s) (trace s).
Definition set_Responses (c : list slice) (s : state) : state :=
  mkState (mem s) (conn s) (err s) (responses s) c (sw s) (trace s).
Definition set_sw (c : list bool) (s : state) : state :=
  mkState (mem s) (conn s) (err s) (responses s) (Responses s) c (trace s).
Definition log (e : event) (s : state) : state :=
  mkState (mem s) (conn s) (err s) (responses s) (Responses s) (sw s) (trace s ++ [e]).

(** The contents a slice points to. *)
Definition contents (s : state) (b : slice) : list byte :=
  default [] (mem s !! b).

(** [ch <- x] on a buffered channel: blocks when the buffer is full. *)
Definition chan_send {A : Type} (buf : list A) (x : A) : option (list A) :=
  if (length buf <? capacity)%nat then Some (buf ++ [x]) else None.

(** The answer of the next [Write] of [n] bytes, and the script left. *)
Definition next_write (c : connection) (n : nat)
  : Z * option error * connection :=
  match outgoing c with
  | r :: rest => (r, mkConn rest (incoming c))
  | [] => ((Z.of_nat n, None), c)
  end.

(** One operation of a goroutine.  [None]: the goroutine has returned or
    panicked, or its operation blocks in this state. *)
Definition step {R : Type} (s : state) (p : go R) : option (state * go R) :=
  match p with
  | Ret _ | Panic _ => None
  | Make n k =>
      Some (set_mem (mem s ++ [replicate n x00]) s, k (length (mem s)))
  | Copy dst src k =>
      match mem s !! dst, mem s !! src with
      | Some d, Some c =>
          let n := (length d `min` length c)%nat in
          Some (set_mem (<[dst := take n c ++ drop n d]> (mem s)) s, k)
      | _, _ => None
      end
  | Store b i v k =>
      match mem s !! b with
      | Some d =>
          if (i <? length d)%nat
          then Some (set_mem (<[b := <[i := v]> d]> (mem s)) s, k)
          else Some (s, Panic "index out of range")
      | None => None
      end
  | Index b i k =>
      match mem s !! b with
      | Some d =>
          match d !! i with
          | Some v => Some (s, k v)
          | None => Some (s, Panic "index out of range")
          end
      | None => None
      end
  | Len b k =>
      match mem s !! b with
      | Some d => Some (s, k (length d))
      | None => None
      end
  | ConnWrite b k =>
      match mem s !! b with
      | Some d =>
          let '(n, e, c) := next_write (conn s) (length d) in
          Some (log (Written d n e) (set_conn c s), k n e)
      | None => None
      end
  | ConnRead b k =>
      match mem s !! b, incoming (conn s) with
      | Some d, (data, e) :: rest =>
          let n := (length d `min` length data)%nat in
          let d' := take n data ++ drop n d in
          Some (log (WasRead d' (Z.of_nat n) e)
                  (set_conn (mkConn (outgoing (conn s)) rest)
                     (set_mem (<[b := d']> (mem s)) s)),
                k (Z.of_nat n) e)
      | _, _ => None
      end
  | SendSw k =>
      match chan_send (sw s) true with
      | Some c => Some (log MarkerSet (set_sw c s), k)
      | None => None
      end
  | SelectSw received otherwise =>
      match sw s with
      | _ :: rest => Some (log MarkerCleared (set_sw rest s), received)
      | [] => Some (s, otherwise)
      end
  | SendResponses b k =>
      match chan_send (responses s) b with
      | Some c => Some (log (ToWaiter (contents s b)) (set_responses c s), k)
      | None => None
      end
  | RecvResponses k =>
      match responses s with
      | b :: rest => Some (set_responses rest s, k b)
      | [] => None
      end
  | SendPublic b k =>
      match chan_send (Responses s) b with
      | Some c => Some (log (ToObserver (contents s b)) (set_Responses c s), k)
      | None => None
      end
  | SendErr e k =>
      match chan_send (err s) e with
      | Some c => Some (log (Failure e) (set_err c s), k)
      | None => None
      end
  | Loop body k =>
      Some (s, c ← body; match c with Continue => Loop body k | Break => k end)
  end.

(** A goroutine running on its own until it returns, panics or blocks. *)
Fixpoint run {R : Type} (fuel : nat) (s : state) (p : go R) : state * go R :=
  match fuel with
  | O => (s, p)
  | S fuel =>
      match step s p with
      | Some (s', p') => run fuel s' p'
      | None => (s, p)
      end
  end.

(** [steps s p s' p']: the goroutine [p] gets from [s] to [s'], where it
    has [p'] left to do. *)
Inductive steps {R : Type} : state -> go R -> state -> go R -> Prop :=
| steps_refl s p : steps s p s p
| steps_step s p s1 p1 s' p' :
    step s p = Some (s1, p1) -> steps s1 p1 s' p' -> steps s p s' p'.

(** ** The package *)

(** The package-level templates live in the first eight arrays. *)
Definition SWITCH_INPUT : slice := 0%nat.
Definition SET_LED_TIMEOUT : slice := 1%nat.
Definition MUTE_BUZZER : slice := 2%nat.
Definition UNMUTE_BUZZER : slice := 3%nat.
Definition ENABLE_AUTO_INPUT_DETECTION : slice := 4%nat.
Definition DISABLE_AUTO_INPUT_DETECTION : slice := 5%nat.
Definition GET_CURRENT_INPUT : slice := 6%nat.
Definition OUTPUT : slice := 7%nat.

Definition globals : memory :=
  [ [xaa; xbb; x03; x01; x00; xee];
    [xaa; xbb; x03; x03; x00; xee];
    [xaa; xbb; x03; x02; x00; xee];
    [xaa; xbb; x03; x02; x01; xee];
    [xaa; xbb; x03; x81; x01; xee];
    [xaa; xbb; x03; x81; x00; xee];
    [xaa; xbb; x03; x10; x00; xee];
    [xaa; xbb; x03; x11] ].

Definition injectInputToPayload (payload : slice) (input : byte) : go slice :=
  command ← make 6;
  copy command payload;;
  store command 4 input;;
  Ret command.

Definition isValidOutput (output : slice) : go bool :=
  index_is output 0 xaa &&&
  index_is output 1 xbb &&&
  index_is output 2 x03 &&&
  index_is output 3 x11 &&&
  (b5 ← index output 5; b4 ← index output 4;
   Ret (Byte.eqb (byte_sub b5 b4) x16)).

Definition extractInput (response : slice) : go (Z * option error) :=
  ok ← isValidOutput response;
  if ok : bool
  then b ← index response 4; Ret (byte.unsigned b + 1, None)
  else Ret (0, Some (errors_New "invalid response")).

Definition send (command : slice) : go (option error) :=
  r ← conn_Write command;
  let '(bytesSent, err) := r in
  match err with
  | Some e => Ret (Some e)
  | None =>
      send_sw;;
      if negb (bytesSent =? 6)
      then Ret (Some (wrong_amount bytesSent))
      else Ret None
  end.

Definition SwitchInput (input : Z) : go (Z * option error) :=
  if (input <? 1) && (input >? 16)
  then Ret (0, Some (errors_New "invalid input value"))
  else
    command ← injectInputToPayload SWITCH_INPUT (byte.of_Z input);
    send command;;
    response ← recv_responses;
    extractInput response.

Definition SetLedTimeout (input : Z) : go (Z * option error) :=
  if (input <? 0) && (input >? 30)
  then Ret (0, Some (errors_New "invalid LED timeout value"))
  else
    command ← injectInputToPayload GET_CURRENT_INPUT (byte.of_Z input);
    send command;;
    response ← recv_responses;
    extractInput response.

Definition MuteBuzzer : go (option error) := send MUTE_BUZZER.
Definition UnmuteBuzzer : go (option error) := send UNMUTE_BUZZER.
Definition EnableAutoInputDetection : go (option error) :=
  send ENABLE_AUTO_INPUT_DETECTION.
Definition DisableAutoInputDetection : go (option error) :=
  send DISABLE_AUTO_INPUT_DETECTION.

Definition GetCurrentInput : go (Z * option error) :=
  send GET_CURRENT_INPUT;;
  response ← recv_responses;
  extractInput response.

Definition receiveLoop : go unit :=
  for_ever (
    response ← make 6;
    r ← conn_Read response;
    let '(read, err) := r in
    match err with
    | Some e => send_err e;; Ret Break
    | None =>
        SelectSw (send_responses response;; Ret Continue)
                 (send_Responses response;; Ret Continue)
    end).

(** The state [connect] leaves: the templates in memory, empty channels. *)
Definition connected (c : connection) : state :=
  mkState globals c [] [] [] [] [].


(** ** The variant with the context-based read loop

    Its [send] sets no marker, its operations return only the error of
    [send], and its [isValidOutput] checks the length first. *)
Module Part000.

Definition send (command : slice) : go (option error) :=
  r ← conn_Write command;
  let '(bytesSent, err) := r in
  match err with
  | Some e => Ret (Some e)
  | None =>
      if negb (bytesSent =? 6)
      then Ret (Some (wrong_amount bytesSent))
      else Ret None
  end.

Definition SwitchInput (input : Z) : go (option error) :=
  if (input <? 1) && (input >? 16)
  then Ret (Some (errors_New "invalid input value"))
  else
    command ← injectInputToPayload SWITCH_INPUT (byte.of_Z input);
    send command.

Definition SetLedTimeout (input : Z) : go (option error) :=
  if (input <? 0) && (input >? 30)
  then Ret (Some (errors_New "invalid LED timeout value"))
  else
    command ← injectInputToPayload GET_CURRENT_INPUT (byte.of_Z input);
    send command.

Definition isValidOutput (output : slice) : go bool :=
  (n ← len output; Ret (n =? 6)%nat) &&&
  index_is output 0 xaa &&&
  index_is output 1 xbb &&&
  index_is output 2 x03 &&&
  index_is output 3 x11 &&&
  (b5 ← index output 5; b4 ← index output 4;
   Ret (Byte.eqb (byte_sub b5 b4) x16)).

Definition ExtractInput (response : slice) : go (Z * option error) :=
  ok ← isValidOutput response;
  if ok : bool
  then b ← index response 4; Ret (byte.unsigned b + 1, None)
  else Ret (0, Some (errors_New "invalid response")).

End Part000.

(** ** Goroutines side by side *)

(** The calls a client makes, one after the other. *)
Inductive operation : Type :=
| CallSwitchInput (input : Z)
| CallSetLedTimeout (input : Z)
| CallMuteBuzzer
| CallUnmuteBuzzer
| CallEnableAutoInputDetection
| CallDisableAutoInputDetection
| CallGetCurrentInput.

Definition call (op : operation) : go unit :=
  match op with
  | CallSwitchInput input => SwitchInput input;; Ret tt
  | CallSetLedTimeout input => SetLedTimeout input;; Ret tt
  | CallMuteBuzzer => MuteBuzzer;; Ret tt
  | CallUnmuteBuzzer => UnmuteBuzzer;; Ret tt
  | CallEnableAutoInputDetection => EnableAutoInputDetection;; Ret tt
  | CallDisableAutoInputDetection => DisableAutoInputDetection;; Ret tt
  | CallGetCurrentInput => GetCurrentInput;; Ret tt
  end.

Definition client (ops : list operation) : go unit :=
  foldr (fun op rest => call op;; rest) (Ret tt) ops.

Inductive goroutine : Type := Caller | Receiver.

(** The calling goroutine and the receive loop over one shared state. *)
Record system : Type := mkSystem {
  shared : state;
  caller : go unit;
  receiver : go unit
}.

(** The scheduler lets one goroutine do one operation; a goroutine that
    cannot move stays where it is. *)
Definition sys_step (g : goroutine) (c : system) : system :=
  match g with
  | Caller =>
      match step (shared c) (caller c) with
      | Some (s', p') => mkSystem s' p' (receiver c)
      | None => c
      end
  | Receiver =>
      match step (shared c) (receiver c) with
      | Some (s', p') => mkSystem s' (caller c) p'
      | None => c
      end
  end.

Definition exec (schedule : list goroutine) (c : system) : system :=
  foldl (fun c g => sys_step g c) c schedule.

(** ** Properties of programs and frames *)

(** The frame [injectInputToPayload] builds from the bytes of its
    template. *)
Definition encode (tmpl : list byte) (input : byte) : list byte :=
  let zero := replicate 6 x00 in
  let n := (length zero `min` length tmpl)%nat in
  <[4%nat := input]> (take n tmpl ++ drop n zero).

(** [p], started in [s], hands [frame] to [conn.Write], and has touched
    neither the connection nor a channel before. *)
Definition transmits {R : Type} (s : state) (p : go R) (frame : list byte)
  : Prop :=
  exists s' p' n e,
    steps s p s' p' /\ trace s' = trace s ++ [Written frame n e].

(** A well-formed status response: six bytes, the marker and opcode
    AA BB 03 11, and byte 5 minus byte 4 equal to 0x16 in byte
    arithmetic. *)
Definition accepted (frame : list byte) : Prop :=
  length frame = 6%nat /\
  take 4 frame = [xaa; xbb; x03; x11] /\
  exists b4 b5, frame !! 4%nat = Some b4 /\ frame !! 5%nat = Some b5 /\
    (byte.unsigned b5 - byte.unsigned b4) mod 256 = 0x16.

(** The five comparisons of [isValidOutput] on a frame of six bytes. *)
Definition checks (b0 b1 b2 b3 b4 b5 : byte) : bool :=
  Byte.eqb b0 xaa && Byte.eqb b1 xbb && Byte.eqb b2 x03 && Byte.eqb b3 x11 &&
  Byte.eqb (byte_sub b5 b4) x16.

Definition decoded (b0 b1 b2 b3 b4 b5 : byte) : Z * option error :=
  if checks b0 b1 b2 b3 b4 b5
  then (byte.unsigned b4 + 1, None)
  else (0, Some (errors_New "invalid response")).

(** [p] writes only into arrays at or above [b], given that the arrays it
    allocates are. *)
Fixpoint frame_safe {R : Type} (b : nat) (p : go R) : Prop :=
  match p with
  | Ret _ | Panic _ => True
  | Make n k => forall l, (b <= l)%nat -> frame_safe b (k l)
  | Copy dst src k => (b <= dst)%nat /\ frame_safe b k
  | Store s i v k => (b <= s)%nat /\ frame_safe b k
  | Index s i k => forall v, frame_safe b (k v)
  | Len s k => forall n, frame_safe b (k n)
  | ConnWrite s k => forall n e, frame_safe b (k n e)
  | ConnRead s k => (b <= s)%nat /\ forall n e, frame_safe b (k n e)
  | SendSw k => frame_safe b k
  | SelectSw r o => frame_safe b r /\ frame_safe b o
  | SendResponses s k => frame_safe b k
  | RecvResponses k => forall s, frame_safe b (k s)
  | SendPublic s k => frame_safe b k
  | SendErr e k => frame_safe b k
  | Loop body k => frame_safe b body /\ frame_safe b k
  end.

(** Both goroutines are [frame_safe] above [b], and memory reaches up to
    [b]. *)
Definition system_safe (b : nat) (c : system) : Prop :=
  frame_safe b (caller c) /\ frame_safe b (receiver c) /\
  (b <= length (mem (shared c)))%nat.

(** ** Scenarios *)

(** A status response for input 3 sits in memory behind the templates. *)
Definition status_state : state :=
  mkState (globals ++ [[xaa; xbb; x03; x11; x02; x18]]) (mkConn [] [])
    [] [] [] [] [].


(** A switch that has just been connected, with nothing scripted on the
    connection. *)
Definition fresh_switch : state := connected (mkConn [] []).

(** Encoding [v] with the status-response template and decoding the
    result gives [out]. *)
Definition round_trip (s : state) (v : byte) (out : Z) : Prop :=
  exists s',
    steps s (command ← injectInputToPayload OUTPUT v; extractInput command)
      s' (Ret (out, None)).

(** The connection will report five bytes written, and no error. *)
Definition short_write : state := connected (mkConn [(5, None)] []).

(** The device answers the query for the current input at once: the
    receive loop gets to read the reply right after the caller's write. *)
Definition race_start : state :=
  connected (mkConn [] [([xaa; xbb; x03; x11; x02; x18], None)]).

Definition race_schedule : list goroutine :=
  [Caller; Receiver; Receiver; Receiver; Receiver; Receiver; Caller; Caller].

(** The marker is set at every write of the trace; [set] tells whether it
    is before the first event. *)
Fixpoint marker_set_at_writes (set : bool) (t : list event) : bool :=
  match t with
  | [] => true
  | Written _ _ _ :: t => set && marker_set_at_writes set t
  | MarkerSet :: t => marker_set_at_writes true t
  | MarkerCleared :: t => marker_set_at_writes false t
  | _ :: t => marker_set_at_writes set t
  end.

(** The buffer of the receive loop once [Read] has put [data] into it:
    the bytes that fit, and zeros behind them. *)
Definition read_into (data : list byte) : list byte :=
  let zero := replicate 6 x00 in
  let n := (length zero `min` length data)%nat in
  take n data ++ drop n zero.

(** A caller has set the marker, and the reply is on its way in. *)
Definition awaited_reply : state :=
  mkState globals (mkConn [] [([xaa; xbb; x03; x11; x02; x18], None)])
    [] [] [] [true] [].

(** The slice [b] points to an array of six bytes. *)
Definition six (s : state) (b : slice) : Prop :=
  exists d, mem s !! b = Some d /\ length d = 6%nat.

(** Whatever [p] sends on [responses] is a slice it made with six bytes,
    or one of the [known] ones. *)
Fixpoint hands_over_six {R : Type} (known : slice -> Prop) (p : go R) : Prop :=
  match p with
  | Ret _ | Panic _ => True
  | Make n k =>
      forall l, hands_over_six (fun b => (n = 6%nat /\ b = l) \/ known b) (k l)
  | Copy dst src k => hands_over_six known k
  | Store s i v k => hands_over_six known k
  | Index s i k => forall v, hands_over_six known (k v)
  | Len s k => forall n, hands_over_six known (k n)
  | ConnWrite s k => forall n e, hands_over_six known (k n e)
  | ConnRead s k => forall n e, hands_over_six known (k n e)
  | SendSw k => hands_over_six known k
  | SelectSw r o => hands_over_six known r /\ hands_over_six known o
  | SendResponses s k => known s /\ hands_over_six known k
  | RecvResponses k => forall s, hands_over_six known (k s)
  | SendPublic s k => hands_over_six known k
  | SendErr e k => hands_over_six known k
  | Loop body k => hands_over_six known body /\ hands_over_six known k
  end.

(** Every slice waiting in [responses] has six bytes, and both goroutines
    will only add such slices. *)
Definition six_invariant (c : system) : Prop :=
  (forall b, b ∈ responses (shared c) -> six (shared c) b) /\
  (exists known, (forall b, known b -> six (shared c) b) /\
                 hands_over_six known (caller c)) /\
  (exists known, (forall b, known b -> six (shared c) b) /\
                 hands_over_six known (receiver c)).

(** [p] sets a marker only after a [Write] of its own that returned no
    error, one marker for one write; [credit] counts the writes it has
    made so far that have no marker yet. *)
Fixpoint marks_after_writes {R : Type} (credit : nat) (p : go R) : Prop :=
  match p with
  | Ret _ | Panic _ => True
  | Make n k => forall l, marks_after_writes credit (k l)
  | Copy dst src k => marks_after_writes credit k
  | Store s i v k => marks_after_writes credit k
  | Index s i k => forall v, marks_after_writes credit (k v)
  | Len s k => forall n, marks_after_writes credit (k n)
  | ConnWrite s k =>
      forall n e,
        marks_after_writes
          (match e with None => S credit | Some _ => credit end) (k n e)
  | ConnRead s k => forall n e, marks_after_writes credit (k n e)
  | SendSw k =>
      match credit with
      | S credit => marks_after_writes credit k
      | O => False
      end
  | SelectSw r o => marks_after_writes credit r /\ marks_after_writes credit o
  | SendResponses s k => marks_after_writes credit k
  | RecvResponses k => forall s, marks_after_writes credit (k s)
  | SendPublic s k => marks_after_writes credit k
  | SendErr e k => marks_after_writes credit k
  | Loop body k => marks_after_writes 0 body /\ marks_after_writes 0 k
  end.

(** The same count on a trace: [None] as soon as a marker is set that no
    earlier successful write accounts for. *)
Definition credit_step (c : option nat) (e : event) : option nat :=
  match e with
  | Written _ _ None => S <$> c
  | MarkerSet => match c with Some (S n) => Some n | _ => None end
  | _ => c
  end.

Definition credit (t : list event) : option nat :=
  foldl credit_step (Some 0%nat) t.

Definition credit_invariant (c : system) : Prop :=
  exists n m : nat,
    credit (trace (shared c)) = Some (n + m)%nat /\
    marks_after_writes n (caller c) /\ marks_after_writes m (receiver c).

(** ** Frames and outcomes, for the properties of the remaining code *)

(** Byte [i] of a frame built on the template [tmpl]: the byte of the
    template where it has one, zero behind its end. *)
Definition template_byte (tmpl : list byte) (i : nat) : byte :=
  default x00 (tmpl !! i).

(** The status response of the device for the parameter byte [v]. *)
Definition status_frame (v : byte) : list byte :=
  [xaa; xbb; x03; x11; v; byte.of_Z (byte.unsigned v + 0x16)].

#[export] Instance byte_eq_decision : EqDecision byte := Byte.byte_eq_dec.

(** A reply with a byte too many, and one with a byte too few. *)
Definition long_reply : state :=
  mkState (globals ++ [[xaa; xbb; x03; x11; x02; x18; x00]]) (mkConn [] [])
    [] [] [] [] [].

Definition short_reply : state :=
  mkState (globals ++ [[xaa; xbb; x03; x11; x02]]) (mkConn [] [])
    [] [] [] [] [].

(** [p] has stopped in [s] at an operation that cannot go on: a send on a
    full channel, a receive on an empty one, a [Read] with nothing to
    read. *)
Definition waiting {R : Type} (s : state) (p : go R) : Prop :=
  step s p = None /\
  match p with Ret _ | Panic _ => False | _ => True end.

(** The call [p] runs until it waits, the receive loop then takes one
    turn, and the call goes on to return [r]. *)
Definition answered {R : Type} (s : state) (p : go R) (s' : state) (r : R)
  : Prop :=
  exists s1 p1 s2,
    steps s p s1 p1 /\ waiting s1 p1 /\
    steps s1 receiveLoop s2 receiveLoop /\
    steps s2 p1 s' (Ret r).

(** The commands without a parameter, each with the frame of its
    template. *)
Definition commands : list (go (option error) * list byte) :=
  [ (MuteBuzzer, [xaa; xbb; x03; x02; x00; xee]);
    (UnmuteBuzzer, [xaa; xbb; x03; x02; x01; xee]);
    (EnableAutoInputDetection, [xaa; xbb; x03; x81; x01; xee]);
    (DisableAutoInputDetection, [xaa; xbb; x03; x81; x00; xee]) ].

(** What [ExtractInput] makes of a frame: the five comparisons on six
    bytes, and "invalid response" on any other length. *)
Definition decode_frame (frame : list byte) : Z * option error :=
  match frame with
  | [b0; b1; b2; b3; b4; b5] => decoded b0 b1 b2 b3 b4 b5
  | _ => (0, Some (errors_New "invalid response"))
  end.

(** The device answers the next request with a status response for the
    parameter byte 2, that is input 3. *)
Definition replying_switch : state :=
  connected (mkConn [] [(status_frame x02, None)]).

(** The connection refuses the next [Write]. *)
Definition broken_pipe : state :=
  connected (mkConn [(0, Some (net_error "broken pipe"))] []).

(** The next [Read] fails, with a marker pending. *)
Definition read_fails : state :=
  mkState globals (mkConn [] [([], Some (net_error "connection reset"))])
    [] [] [] [true] [].

(** A status response that arrives in two reads, with a marker pending. *)
Definition split_reply : state :=
  mkState globals
    (mkConn [] [([xaa; xbb; x03], None); ([x11; x02; x18], None)])
    [] [] [] [true] [].

(** The slice [b] points to an array of [n] bytes. *)
Definition has_length (s : state) (b : slice) (n : nat) : Prop :=
  exists d, mem s !! b = Some d /\ length d = n.

(** [p] indexes within bounds: every slice it reads or writes at an index
    is one it has made, taken from [responses] or found in [sized], and
    the index lies below its length.  What it sends on [responses] has
    six bytes, which is what it may assume of what it takes from there. *)
Fixpoint in_bounds {R : Type} (sized : slice -> nat -> Prop) (p : go R)
  : Prop :=
  match p with
  | Ret _ => True
  | Panic _ => False
  | Make n k =>
      forall l, in_bounds (fun b m => (b = l /\ m = n) \/ sized b m) (k l)
  | Copy dst src k => in_bounds sized k
  | Store s i v k =>
      (exists n, sized s n /\ (i < n)%nat) /\ in_bounds sized k
  | Index s i k =>
      (exists n, sized s n /\ (i < n)%nat) /\ forall v, in_bounds sized (k v)
  | Len s k => forall n, in_bounds sized (k n)
  | ConnWrite s k => forall n e, in_bounds sized (k n e)
  | ConnRead s k => forall n e, in_bounds sized (k n e)
  | SendSw k => in_bounds sized k
  | SelectSw r o => in_bounds sized r /\ in_bounds sized o
  | SendResponses s k => sized s 6%nat /\ in_bounds sized k
  | RecvResponses k =>
      forall l, in_bounds (fun b m => (b = l /\ m = 6%nat) \/ sized b m) (k l)
  | SendPublic s k => in_bounds sized k
  | SendErr e k => in_bounds sized k
  | Loop body k => in_bounds sized body /\ in_bounds sized k
  end.

Definition bounds_invariant (c : system) : Prop :=
  (forall b, b ∈ responses (shared c) -> has_length (shared c) b 6) /\
  (exists sized, (forall b n, sized b n -> has_length (shared c) b n) /\
                 in_bounds sized (caller c)) /\
  (exists sized, (forall b n, sized b n -> has_length (shared c) b n) /\
                 in_bounds sized (receiver c)).

(** Counting the events of a trace. *)
Definition is_accepted_write (e : event) : bool :=
  match e with Written _ _ None => true | _ => false end.
Definition is_marker_set (e : event) : bool :=
  match e with MarkerSet => true | _ => false end.
Definition is_marker_cleared (e : event) : bool :=
  match e with MarkerCleared => true | _ => false end.
Definition is_to_waiter (e : event) : bool :=
  match e with ToWaiter _ => true | _ => false end.

Definition count (f : event -> bool) (t : list event) : nat :=
  length (List.filter f t).

(** [p] accounts for its markers: it sets one only after a [Write] of its
    own without error ([owed] counts the writes not yet marked), and it
    sends on [responses] only after taking a marker from [sw] ([taken]
    counts the markers taken and not yet answered). *)
Fixpoint accounted {R : Type} (owed taken : nat) (p : go R) : Prop :=
  match p with
  | Ret _ | Panic _ => True
  | Make n k => forall l, accounted owed taken (k l)
  | Copy dst src k => accounted owed taken k
  | Store s i v k => accounted owed taken k
  | Index s i k => forall v, accounted owed taken (k v)
  | Len s k => forall n, accounted owed taken (k n)
  | ConnWrite s k =>
      forall n e,
        accounted (match e with None => S owed | Some _ => owed end) taken
          (k n e)
  | ConnRead s k => forall n e, accounted owed taken (k n e)
  | SendSw k =>
      match owed with
      | S owed => accounted owed taken k
      | O => False
      end
  | SelectSw r o => accounted owed (S taken) r /\ accounted owed taken o
  | SendResponses s k =>
      match taken with
      | S taken => accounted owed taken k
      | O => False
      end
  | RecvResponses k => forall s, accounted owed taken (k s)
  | SendPublic s k => accounted owed taken k
  | SendErr e k => accounted owed taken k
  | Loop body k => accounted 0 0 body /\ accounted 0 0 k
  end.

(** The books balance: every accepted write is marked or still owed,
    every marker set is taken or still in [sw], every marker taken is
    answered on [responses] or still held by the goroutine that took
    it. *)
Definition ledger (c : system) : Prop :=
  let t := trace (shared c) in
  exists owed taken owed' taken' : nat,
    accounted owed taken (caller c) /\
    accounted owed' taken' (receiver c) /\
    count is_accepted_write t = (count is_marker_set t + owed + owed')%nat /\
    count is_marker_set t
      = (count is_marker_cleared t + length (sw (shared c)))%nat /\
    count is_marker_cleared t
      = (count is_to_waiter t + taken + taken')%nat.

(** ** The rest of the variant with the context-based read loop *)

From Stdlib Require Import Ascii.

Module Part000Commands.

Definition MuteBuzzer : go (option error) := Part000.send MUTE_BUZZER.
Definition UnmuteBuzzer : go (option error) := Part000.send UNMUTE_BUZZER.
Definition EnableAutoInputDetection : go (option error) :=
  Part000.send ENABLE_AUTO_INPUT_DETECTION.
Definition DisableAutoInputDetection : go (option error) :=
  Part000.send DISABLE_AUTO_INPUT_DETECTION.
Definition SendGetCurrentInput : go (option error) :=
  Part000.send GET_CURRENT_INPUT.

(** The lower-case hexadecimal digits of [fmt], for a value below 256. *)
Definition hex_digit (n : N) : ascii :=
  nth (N.to_nat n) (String.list_ascii_of_string "0123456789abcdef") "?"%char.

Definition hex (v : N) : string :=
  if (v <? 16)%N then String (hex_digit v) ""
  else String (hex_digit (v / 16)) (String (hex_digit (v mod 16)) "").

Definition pad_left (c : ascii) (width : nat) (s : string) : string :=
  String.string_of_list_ascii (replicate (width - String.length s) c) +:+ s.

(** [fmt.Sprintf("%3.2x", b)]: at least two hexadecimal digits, in a
    field of three. *)
Definition Sprintf_3_2x (b : byte) : string :=
  pad_left " " 3 (pad_left "0" 2 (hex (Byte.to_N b))).

(** [strings.ToUpper], on ASCII. *)
Definition upper (c : ascii) : ascii :=
  let n := N_of_ascii c in
  if ((97 <=? n) && (n <=? 122))%N then ascii_of_N (n - 32) else c.

Fixpoint ToUpper (s : string) : string :=
  match s with
  | EmptyString => EmptyString
  | String c s => String (upper c) (ToUpper s)
  end.

Definition printHex (data : list byte) : string :=
  fold_left (fun out b => out +:+ ToUpper (Sprintf_3_2x b)) data
    (String "027" "[1D").

End Part000Commands.

(** What [send] returns for an answer of [Write]. *)
Definition sent (n : Z) (e : option error) : option error :=
  match e with
  | Some failure => Some failure
  | None => if negb (n =? 6) then Some (wrong_amount n) else None
  end.

(** The operations of that variant, each with the frame it builds and
    the arrays it allocates for it. *)
Definition calls (input : Z)
  : list (go (option error) * list byte * list (list byte)) :=
  let switch := [xaa; xbb; x03; x01; byte.of_Z input; xee] in
  let led := [xaa; xbb; x03; x10; byte.of_Z input; xee] in
  [ (Part000.SwitchInput input, switch, [switch]);
    (Part000.SetLedTimeout input, led, [led]);
    (Part000Commands.MuteBuzzer, [xaa; xbb; x03; x02; x00; xee], []);
    (Part000Commands.UnmuteBuzzer, [xaa; xbb; x03; x02; x01; xee], []);
    (Part000Commands.EnableAutoInputDetection,
     [xaa; xbb; x03; x81; x01; xee], []);
    (Part000Commands.DisableAutoInputDetection,
     [xaa; xbb; x03; x81; x00; xee], []);
    (Part000Commands.SendGetCurrentInput, [xaa; xbb; x03; x10; x00; xee], []) ].

(** The upper-case digits, and a byte as [printHex] shows it. *)
Definition HEX (n : N) : ascii :=
  nth (N.to_nat n) (String.list_ascii_of_string "0123456789ABCDEF") "?"%char.

Definition cell (b : byte) : string :=
  String " " (String (HEX (Byte.to_N b / 16))
                (String (HEX (Byte.to_N b mod 16)) "")).

Fixpoint cells (data : list byte) : string :=
  match data with
  | [] => ""
  | b :: data => cell b +:+ cells data
  end.

(** The value of an upper-case hexadecimal digit. *)
Definition digit_value (c : ascii) : Z :=
  let n := Z.of_N (N_of_ascii c) in
  if n <? 65 then n - 48 else n - 55.

(** ** What goes out on the connection *)

(** The frame of a call, as the code builds it. *)
Definition frame_of (op : operation) : list byte :=
  match op with
  | CallSwitchInput input => [xaa; xbb; x03; x01; byte.of_Z input; xee]
  | CallSetLedTimeout input => [xaa; xbb; x03; x10; byte.of_Z input; xee]
  | CallMuteBuzzer => [xaa; xbb; x03; x02; x00; xee]
  | CallUnmuteBuzzer => [xaa; xbb; x03; x02; x01; xee]
  | CallEnableAutoInputDetection => [xaa; xbb; x03; x81; x01; xee]
  | CallDisableAutoInputDetection => [xaa; xbb; x03; x81; x00; xee]
  | CallGetCurrentInput => [xaa; xbb; x03; x10; x00; xee]
  end.

(** The byte strings handed to [Write], in order. *)
Fixpoint written (t : list event) : list (list byte) :=
  match t with
  | [] => []
  | Written data _ _ :: t => data :: written t
  | _ :: t => written t
  end.

(** What a goroutine knows of the arrays: the contents of some of them. *)
Definition update (known : slice -> option (list byte)) (b : slice)
    (d : list byte) : slice -> option (list byte) :=
  fun b' => if decide (b' = b) then Some d else known b'.

(** [p] hands to [Write], one after the other, the byte strings [frames]
    and nothing else, given the contents [known]; it writes only into
    arrays whose contents it knows, and it never reads from the
    connection.  [Q] is what holds when [p] returns. *)
Fixpoint sends {R : Type} (known : slice -> option (list byte))
    (frames : list (list byte)) (p : go R)
    (Q : (slice -> option (list byte)) -> list (list byte) -> R -> Prop)
  : Prop :=
  match p with
  | Ret r => Q known frames r
  | Panic _ => True
  | Make n k =>
      forall l, known l = None ->
        sends (update known l (replicate n x00)) frames (k l) Q
  | Copy dst src k =>
      match known dst, known src with
      | Some d, Some c =>
          let n := (length d `min` length c)%nat in
          sends (update known dst (take n c ++ drop n d)) frames k Q
      | _, _ => False
      end
  | Store b i v k =>
      match known b with
      | Some d => sends (update known b (<[i := v]> d)) frames k Q
      | None => False
      end
  | Index b i k => forall v, sends known frames (k v) Q
  | Len b k => forall n, sends known frames (k n) Q
  | ConnWrite b k =>
      match frames with
      | f :: rest => known b = Some f /\ forall n e, sends known rest (k n e) Q
      | [] => False
      end
  | ConnRead b k => False
  | SendSw k => sends known frames k Q
  | SelectSw r o => sends known frames r Q /\ sends known frames o Q
  | SendResponses b k => sends known frames k Q
  | RecvResponses k => forall l, sends known frames (k l) Q
  | SendPublic b k => sends known frames k Q
  | SendErr e k => sends known frames k Q
  | Loop body k => False
  end.

(** [p] writes only into arrays it has made itself, or that are in [own],
    and never to the connection. *)
Fixpoint keeps_to_itself {R : Type} (own : slice -> Prop) (p : go R) : Prop :=
  match p with
  | Ret _ | Panic _ => True
  | Make n k => forall l, keeps_to_itself (fun b => b = l \/ own b) (k l)
  | Copy dst src k => own dst /\ keeps_to_itself own k
  | Store b i v k => own b /\ keeps_to_itself own k
  | Index b i k => forall v, keeps_to_itself own (k v)
  | Len b k => forall n, keeps_to_itself own (k n)
  | ConnWrite b k => False
  | ConnRead b k => own b /\ forall n e, keeps_to_itself own (k n e)
  | SendSw k => keeps_to_itself own k
  | SelectSw r o => keeps_to_itself own r /\ keeps_to_itself own o
  | SendResponses b k => keeps_to_itself own k
  | RecvResponses k => forall l, keeps_to_itself own (k l)
  | SendPublic b k => keeps_to_itself own k
  | SendErr e k => keeps_to_itself own k
  | Loop body k => keeps_to_itself own body /\ keeps_to_itself own k
  end.

(** The caller has [frames] left to send of [all], and the arrays it
    relies on are out of reach of the receive loop. *)
Definition wire_invariant (all : list (list byte)) (c : system) : Prop :=
  exists known frames own,
    sends known frames (caller c) (fun _ _ _ => True) /\
    keeps_to_itself own (receiver c) /\
    (forall b d, known b = Some d -> mem (shared c) !! b = Some d) /\
    (forall b, own b ->
       (b < length (mem (shared c)))%nat /\ known b = None) /\
    written (trace (shared c)) ++ frames = all.

(** The templates are among the contents known. *)
Definition has_templates (known : slice -> option (list byte)) : Prop :=
  forall b tmpl, globals !! b = Some tmpl -> known b = Some tmpl.

(** A frame that came in after a command without a reply waits in
    [responses]; nothing is scripted on the connection. *)
Definition stale_response : state :=
  mkState (globals ++ [status_frame x06]) (mkConn [] [])
    [] [8%nat] [] [] [].

(** Nobody has taken the last unsolicited frame from [Responses], and the
    device sends another one. *)
Definition undrained : state :=
  mkState (globals ++ [status_frame x00])
    (mkConn [] [(status_frame x01, None)])
    [] [] [8%nat] [] [].
(** * Executions *)

Lemma steps_trans {R} s (p : go R) s1 p1 s2 p2 :
  steps s p s1 p1 -> steps s1 p1 s2 p2 -> steps s p s2 p2.
Proof. induction 1; eauto using @steps. Qed.

Lemma steps_here {R} s (p : go R) s' p' :
  s = s' -> p = p' -> steps s p s' p'.
Proof. intros -> ->. constructor. Qed.

#[local] Arguments Byte.eqb : simpl never.
#[local] Arguments byte.of_Z : simpl never.
#[local] Arguments byte.unsigned : simpl never.
#[local] Arguments byte_sub : simpl never.

Ltac norm :=
  cbn [bind mbind mret go_bind go_ret and_then index_is make copy store index
       len conn_Write conn_Read send_sw send_responses recv_responses
       send_Responses send_err for_ever].

(** Memory after an allocation. *)
Lemma lookup_fresh (m : list (list byte)) d : (m ++ [d]) !! length m = Some d.
Proof. by rewrite list_lookup_middle. Qed.

Lemma lookup_old (m : list (list byte)) d b x :
  m !! b = Some x -> (m ++ [d]) !! b = Some x.
Proof. intros H. rewrite lookup_app_l; [done | by eapply lookup_lt_Some]. Qed.

Lemma insert_fresh (m : list (list byte)) d d' :
  <[length m := d']> (m ++ [d]) = m ++ [d'].
Proof.
  rewrite insert_app_r_alt by lia. by rewrite Nat.sub_diag.
Qed.

(** [copy] into a buffer keeps its length. *)
Lemma length_copy (d c : list byte) :
  let n := (length d `min` length c)%nat in
  length (take n c ++ drop n d) = length d.
Proof.
  cbn. rewrite length_app, length_take, length_drop. lia.
Qed.

Lemma injectInputToPayload_steps {R} s payload input tmpl (k : slice -> go R) :
  mem s !! payload = Some tmpl ->
  steps s (injectInputToPayload payload input ≫= k)
    (set_mem (mem s ++ [encode tmpl input]) s) (k (length (mem s))).
Proof.
  intros Hp. unfold injectInputToPayload. norm.
  eapply steps_step; [reflexivity|].
  eapply steps_step.
  { cbn [step set_mem mem]. rewrite lookup_fresh, (lookup_old _ _ _ _ Hp).
    rewrite insert_fresh. reflexivity. }
  eapply steps_step.
  { cbn [step set_mem mem]. rewrite lookup_fresh.
    pose proof (length_copy (replicate 6 x00) tmpl) as Hl. cbn zeta in Hl.
    rewrite Hl, insert_fresh. reflexivity. }
  apply steps_here; reflexivity.
Qed.

(** * Decoding *)

Lemma byte_sub_x16 (b5 b4 : byte) :
  Byte.eqb (byte_sub b5 b4) x16 = true <->
  (byte.unsigned b5 - byte.unsigned b4) mod 256 = 0x16.
Proof.
  unfold byte_sub. split.
  - intros H%Byte.byte_dec_bl.
    apply (f_equal byte.unsigned) in H. by rewrite byte.unsigned_of_Z in H.
  - intros H. apply Byte.byte_dec_lb, byte.unsigned_inj.
    by rewrite byte.unsigned_of_Z.
Qed.

Ltac local_step H :=
  norm; eapply steps_step; [cbn [step]; rewrite H; cbn; reflexivity |]; norm.

Ltac local_run H :=
  repeat first
    [ apply steps_here; reflexivity
    | local_step H
    | match goal with
      | |- context [Byte.eqb ?a ?b] => destruct (Byte.eqb a b) eqn:?
      end ].

Lemma extractInput_steps s response b0 b1 b2 b3 b4 b5 :
  mem s !! response = Some [b0; b1; b2; b3; b4; b5] ->
  steps s (extractInput response) s (Ret (decoded b0 b1 b2 b3 b4 b5)).
Proof.
  intros Hm. unfold extractInput, isValidOutput, decoded, checks. norm.
  local_run Hm.
Qed.

Lemma ExtractInput_steps s response b0 b1 b2 b3 b4 b5 :
  mem s !! response = Some [b0; b1; b2; b3; b4; b5] ->
  steps s (Part000.ExtractInput response) s (Ret (decoded b0 b1 b2 b3 b4 b5)).
Proof.
  intros Hm.
  unfold Part000.ExtractInput, Part000.isValidOutput, decoded, checks. norm.
  local_run Hm.
Qed.

Lemma ExtractInput_wrong_length s response frame :
  mem s !! response = Some frame -> length frame ≠ 6%nat ->
  steps s (Part000.ExtractInput response) s
    (Ret (0, Some (errors_New "invalid response"))).
Proof.
  intros Hm Hl.
  unfold Part000.ExtractInput, Part000.isValidOutput. norm.
  eapply steps_step; [cbn [step]; rewrite Hm; reflexivity|]. norm.
  apply Nat.eqb_neq in Hl. rewrite Hl. norm. apply steps_here; reflexivity.
Qed.

Lemma accepted_six b0 b1 b2 b3 b4 b5 :
  accepted [b0; b1; b2; b3; b4; b5] <-> checks b0 b1 b2 b3 b4 b5 = true.
Proof.
  unfold accepted, checks. rewrite !andb_true_iff, byte_sub_x16. split.
  - intros (_ & Ht & c4 & c5 & H4 & H5 & Hc). cbn in Ht, H4, H5. simplify_eq.
    repeat split; auto using Byte.byte_dec_lb.
  - intros ((((H0 & H1) & H2) & H3) & Hc).
    apply Byte.byte_dec_bl in H0, H1, H2, H3. subst.
    repeat split. exists b4, b5. repeat split. exact Hc.
Qed.

Lemma accepted_length frame : accepted frame -> length frame = 6%nat.
Proof. by intros [? _]. Qed.

Lemma six_bytes (frame : list byte) :
  length frame = 6%nat ->
  exists b0 b1 b2 b3 b4 b5, frame = [b0; b1; b2; b3; b4; b5].
Proof.
  intros Hl. do 7 (destruct frame as [|? frame]; try discriminate Hl).
  eauto 8.
Qed.

(** C3. Decoding accepts a frame exactly when it has six bytes, starts
    with AA BB 03 11 and has byte 5 minus byte 4 equal to 0x16 (in byte
    arithmetic); it then returns byte 4 plus one, and on every other frame
    it returns the error "invalid response".  [Part000.ExtractInput] does so
    on every frame; [extractInput], which has no length check, on the
    six-byte frames that the receive loop hands over. *)
Theorem decode_accepts (s : state) (response : slice) (frame : list byte) :
  mem s !! response = Some frame ->
  (accepted frame ->
   exists v, frame !! 4%nat = Some v /\
     steps s (Part000.ExtractInput response) s
       (Ret (byte.unsigned v + 1, None)) /\
     steps s (extractInput response) s (Ret (byte.unsigned v + 1, None))) /\
  (~ accepted frame ->
   steps s (Part000.ExtractInput response) s
     (Ret (0, Some (errors_New "invalid response"))) /\
   (length frame = 6%nat ->
    steps s (extractInput response) s
      (Ret (0, Some (errors_New "invalid response"))))).
Proof.
  intros Hm. split.
  - intros Ha.
    destruct (six_bytes frame (accepted_length _ Ha))
      as (b0 & b1 & b2 & b3 & b4 & b5 & ->).
    apply accepted_six in Ha. exists b4. split; [done|].
    pose proof (ExtractInput_steps _ _ _ _ _ _ _ _ Hm) as H1.
    pose proof (extractInput_steps _ _ _ _ _ _ _ _ Hm) as H2.
    unfold decoded in H1, H2. rewrite Ha in H1, H2. by split.
  - intros Hn. destruct (decide (length frame = 6%nat)) as [Hl|Hl].
    + destruct (six_bytes frame Hl) as (b0 & b1 & b2 & b3 & b4 & b5 & ->).
      rewrite accepted_six in Hn. apply not_true_is_false in Hn.
      pose proof (ExtractInput_steps _ _ _ _ _ _ _ _ Hm) as H1.
      pose proof (extractInput_steps _ _ _ _ _ _ _ _ Hm) as H2.
      unfold decoded in H1, H2. rewrite Hn in H1, H2. by split.
    + split; [|done]. by eapply ExtractInput_wrong_length.
Qed.

Lemma decode_accepts_witness :
  steps status_state (Part000.ExtractInput 8) status_state (Ret (3, None)) /\
  steps status_state (extractInput 8) status_state (Ret (3, None)).
Proof.
  destruct (decode_accepts status_state 8%nat
              [xaa; xbb; x03; x11; x02; x18] eq_refl) as [Hacc _].
  destruct Hacc as (v & Hv & H1 & H2).
  - repeat split. exists x02, x18. repeat split.
  - cbn in Hv. injection Hv as <-. split; [exact H1 | exact H2].
Defined.

(** [extractInput] itself looks at no length: a longer frame passes, and a
    shorter one makes the goroutine panic. *)
Example extractInput_seven_bytes :
  let s := mkState [[xaa; xbb; x03; x11; x02; x18; x00]] (mkConn [] [])
             [] [] [] [] [] in
  run 20 s (extractInput 0) = (s, Ret (3, None)) /\
  run 20 s (Part000.ExtractInput 0)
    = (s, Ret (0, Some (errors_New "invalid response"))).
Proof. split; reflexivity. Qed.

Example extractInput_five_bytes :
  let s := mkState [[xaa; xbb; x03; x11; x02]] (mkConn [] [])
             [] [] [] [] [] in
  run 20 s (extractInput 0) = (s, Panic "index out of range") /\
  run 20 s (Part000.ExtractInput 0)
    = (s, Ret (0, Some (errors_New "invalid response"))).
Proof. split; reflexivity. Qed.

(** * What a call transmits *)

Lemma range_check_never_fails (input lo hi : Z) :
  lo <= hi -> (input <? lo) && (input >? hi) = false.
Proof.
  intros H. destruct (Z.ltb_spec input lo), (Z.gtb_spec input hi); auto. lia.
Qed.

Lemma step_trace {R} s (p : go R) s' p' :
  step s p = Some (s', p') -> exists evs, trace s' = trace s ++ evs.
Proof.
  destruct p; cbn; intros H;
    repeat match type of H with
           | match ?x with _ => _ end = _ => destruct x eqn:?
           | (let '(_, _) := ?x in _) = _ => destruct x eqn:?
           end;
    simplify_eq; cbn; eauto using app_nil_r.
Qed.

Lemma steps_trace {R} s (p : go R) s' p' :
  steps s p s' p' -> exists evs, trace s' = trace s ++ evs.
Proof.
  induction 1 as [|s p s1 p1 s' p' Hstep _ [evs' IH]].
  - exists []. by rewrite app_nil_r.
  - destruct (step_trace _ _ _ _ Hstep) as [evs Hevs].
    exists (evs ++ evs'). by rewrite IH, Hevs, app_assoc.
Qed.

(** A goroutine on its own has one execution. *)
Lemma steps_linear {R} s (p : go R) s1 p1 s2 p2 :
  steps s p s1 p1 -> steps s p s2 p2 ->
  steps s1 p1 s2 p2 \/ steps s2 p2 s1 p1.
Proof.
  intros H1. revert s2 p2.
  induction H1 as [|s p sa pa s1 p1 Hstep Hrest1 IH]; intros s2 p2 H2.
  - by left.
  - inversion H2 as [|? ? sb pb ? ? Hstep' Hrest]; subst.
    + right. eauto using @steps.
    + rewrite Hstep in Hstep'. simplify_eq. by apply IH.
Qed.

Lemma transmits_unique {R} s (p : go R) f1 f2 :
  transmits s p f1 -> transmits s p f2 -> f1 = f2.
Proof.
  intros (s1 & p1 & n1 & e1 & H1 & T1) (s2 & p2 & n2 & e2 & H2 & T2).
  destruct (steps_linear _ _ _ _ _ _ H1 H2) as [H|H];
    apply steps_trace in H as [evs Hevs];
    rewrite T1, T2, <- app_assoc in Hevs;
    apply app_inv_head in Hevs; cbn in Hevs; by simplify_eq.
Qed.

(** Building a frame and sending it: the frame is what goes out. *)
Lemma inject_send_transmits {R} s payload input tmpl
    (k : option error -> go R) :
  mem s !! payload = Some tmpl ->
  transmits s
    (command ← injectInputToPayload payload input; send command ≫= k)
    (encode tmpl input).
Proof.
  intros Hp.
  destruct (next_write (conn s) (length (encode tmpl input)))
    as [[n e] c] eqn:Hw.
  eexists _, _, n, e. split.
  - eapply steps_trans; [by apply injectInputToPayload_steps|].
    unfold send. norm.
    eapply steps_step; [|apply steps_refl].
    cbn [step set_mem mem conn]. rewrite lookup_fresh, Hw. reflexivity.
  - reflexivity.
Qed.

Lemma inject_send_transmits' s payload input tmpl :
  mem s !! payload = Some tmpl ->
  transmits s
    (command ← injectInputToPayload payload input; Part000.send command)
    (encode tmpl input).
Proof.
  intros Hp.
  destruct (next_write (conn s) (length (encode tmpl input)))
    as [[n e] c] eqn:Hw.
  eexists _, _, n, e. split.
  - eapply steps_trans.
    { exact (injectInputToPayload_steps s payload input tmpl Part000.send Hp). }
    unfold Part000.send. norm.
    eapply steps_step; [|apply steps_refl].
    cbn [step set_mem mem conn]. rewrite lookup_fresh, Hw. reflexivity.
  - reflexivity.
Qed.

Lemma template_loaded s (b : slice) tmpl :
  take 8 (mem s) = globals -> globals !! b = Some tmpl ->
  mem s !! b = Some tmpl.
Proof.
  intros Ht Hb. rewrite <- Ht in Hb.
  apply lookup_take_Some in Hb. tauto.
Qed.

Lemma SwitchInput_transmits s input :
  take 8 (mem s) = globals ->
  transmits s (SwitchInput input)
    [xaa; xbb; x03; x01; byte.of_Z input; xee].
Proof.
  intros Ht. unfold SwitchInput.
  rewrite range_check_never_fails by lia.
  apply (inject_send_transmits s SWITCH_INPUT (byte.of_Z input)
           [xaa; xbb; x03; x01; x00; xee]).
  by apply template_loaded.
Qed.

Lemma SetLedTimeout_transmits s input :
  take 8 (mem s) = globals ->
  transmits s (SetLedTimeout input)
    [xaa; xbb; x03; x10; byte.of_Z input; xee].
Proof.
  intros Ht. unfold SetLedTimeout.
  rewrite range_check_never_fails by lia.
  apply (inject_send_transmits s GET_CURRENT_INPUT (byte.of_Z input)
           [xaa; xbb; x03; x10; x00; xee]).
  by apply template_loaded.
Qed.

Lemma byte_of_small (n : Z) : 0 <= n < 256 -> byte.unsigned (byte.of_Z n) = n.
Proof.
  intros H. rewrite byte.unsigned_of_Z. unfold byte.wrap.
  apply Z.mod_small. lia.
Qed.

Lemma steps_Ret {R} s (r : R) s' p' : steps s (Ret r) s' p' -> s' = s /\ p' = Ret r.
Proof. inversion 1; [done | discriminate]. Qed.

Lemma steps_return_unique {R} s (p : go R) s1 r1 s2 r2 :
  steps s p s1 (Ret r1) -> steps s p s2 (Ret r2) -> s1 = s2 /\ r1 = r2.
Proof.
  intros H1 H2.
  destruct (steps_linear _ _ _ _ _ _ H1 H2) as [H|H];
    apply steps_Ret in H as [? ?]; by simplify_eq.
Qed.

(** C1, as the code has it. For every input from 1 to 16, [SwitchInput]
    transmits AA BB 03 01 b EE where the parameter byte b is the input
    number itself, counted from one. *)
Theorem SwitchInput_frame (s : state) (input : Z) :
  1 <= input <= 16 ->
  take 8 (mem s) = globals ->
  exists b : byte,
    byte.unsigned b = input /\
    transmits s (SwitchInput input) [xaa; xbb; x03; x01; b; xee].
Proof.
  intros Hr Ht. exists (byte.of_Z input). split.
  - apply byte_of_small. lia.
  - by apply SwitchInput_transmits.
Qed.

Lemma SwitchInput_frame_witness :
  exists b : byte,
    byte.unsigned b = 3 /\
    transmits fresh_switch (SwitchInput 3) [xaa; xbb; x03; x01; b; xee].
Proof. apply (SwitchInput_frame fresh_switch 3); [lia | reflexivity]. Defined.

(** C1, as specified, fails: [SwitchInput 3] does not transmit
    AA BB 03 01 02 EE. *)
Lemma SwitchInput_3_not_zero_based :
  ~ transmits fresh_switch (SwitchInput 3) [xaa; xbb; x03; x01; x02; xee].
Proof.
  intros H.
  pose proof (SwitchInput_transmits fresh_switch 3 eq_refl) as H'.
  pose proof (transmits_unique _ _ _ _ H H') as E.
  vm_compute in E. discriminate E.
Qed.

(** C2. The range check of [SwitchInput] rejects nothing: inputs 0, 17 and
    -1 go out on the connection, in both variants, and no input at all
    gets the error "invalid input value". *)
Theorem SwitchInput_rejects_nothing :
  transmits fresh_switch (SwitchInput 0) [xaa; xbb; x03; x01; x00; xee] /\
  transmits fresh_switch (SwitchInput 17) [xaa; xbb; x03; x01; x11; xee] /\
  transmits fresh_switch (SwitchInput (-1)) [xaa; xbb; x03; x01; xff; xee] /\
  transmits fresh_switch (Part000.SwitchInput 0)
    [xaa; xbb; x03; x01; x00; xee] /\
  (forall input,
     SwitchInput input <> Ret (0, Some (errors_New "invalid input value")) /\
     Part000.SwitchInput input
       <> Ret (Some (errors_New "invalid input value"))).
Proof.
  repeat split.
  - apply (SwitchInput_transmits fresh_switch 0 eq_refl).
  - apply (SwitchInput_transmits fresh_switch 17 eq_refl).
  - apply (SwitchInput_transmits fresh_switch (-1) eq_refl).
  - apply (inject_send_transmits' fresh_switch SWITCH_INPUT x00
             [xaa; xbb; x03; x01; x00; xee] eq_refl).
  - unfold SwitchInput. rewrite range_check_never_fails by lia. discriminate.
  - unfold Part000.SwitchInput. rewrite range_check_never_fails by lia.
    discriminate.
Qed.

(** C4. [SetLedTimeout] builds its frame from [GET_CURRENT_INPUT], not
    from [SET_LED_TIMEOUT], and its range check rejects nothing:
    [SetLedTimeout 5] transmits AA BB 03 10 05 EE and not AA BB 03 03 05 EE,
    and [SetLedTimeout 31] goes out as well. *)
Theorem SetLedTimeout_sends_query :
  transmits fresh_switch (SetLedTimeout 5) [xaa; xbb; x03; x10; x05; xee] /\
  ~ transmits fresh_switch (SetLedTimeout 5)
      [xaa; xbb; x03; x03; x05; xee] /\
  transmits fresh_switch (SetLedTimeout 31) [xaa; xbb; x03; x10; x1f; xee] /\
  transmits fresh_switch (Part000.SetLedTimeout 5)
    [xaa; xbb; x03; x10; x05; xee].
Proof.
  repeat split.
  - apply (SetLedTimeout_transmits fresh_switch 5 eq_refl).
  - intros H.
    pose proof (SetLedTimeout_transmits fresh_switch 5 eq_refl) as H'.
    pose proof (transmits_unique _ _ _ _ H H') as E. discriminate E.
  - apply (SetLedTimeout_transmits fresh_switch 31 eq_refl).
  - apply (inject_send_transmits' fresh_switch GET_CURRENT_INPUT x05
             [xaa; xbb; x03; x10; x00; xee] eq_refl).
Qed.

(** C9. Whatever integer is passed, byte 4 of the frame that [SwitchInput]
    and [SetLedTimeout] transmit is the input modulo 256. *)
Theorem parameter_byte_truncates (s : state) (input : Z) :
  take 8 (mem s) = globals ->
  exists b : byte,
    byte.unsigned b = input mod 256 /\
    transmits s (SwitchInput input) [xaa; xbb; x03; x01; b; xee] /\
    transmits s (SetLedTimeout input) [xaa; xbb; x03; x10; b; xee].
Proof.
  intros Ht. exists (byte.of_Z input). split; [|split].
  - apply byte.unsigned_of_Z.
  - by apply SwitchInput_transmits.
  - by apply SetLedTimeout_transmits.
Qed.

Lemma parameter_byte_truncates_witness :
  exists b : byte,
    byte.unsigned b = 1 /\
    transmits fresh_switch (SwitchInput 257) [xaa; xbb; x03; x01; b; xee] /\
    transmits fresh_switch (SetLedTimeout 257) [xaa; xbb; x03; x10; b; xee].
Proof. apply (parameter_byte_truncates fresh_switch 257). reflexivity. Defined.

(** 257 and 1 give the same frame. *)
Lemma SwitchInput_257_as_1 (s : state) (frame : list byte) :
  take 8 (mem s) = globals ->
  transmits s (SwitchInput 257) frame <-> transmits s (SwitchInput 1) frame.
Proof.
  intros Ht.
  pose proof (SwitchInput_transmits s 257 Ht) as H257.
  pose proof (SwitchInput_transmits s 1 Ht) as H1.
  change (byte.of_Z 257) with (byte.of_Z 1) in H257.
  split; intros H.
  - by rewrite (transmits_unique _ _ _ _ H H257).
  - by rewrite (transmits_unique _ _ _ _ H H1).
Qed.

(** * The codec round trip *)

(** With byte 5 left at zero, the check byte relation holds for the
    parameter byte 0xEA alone. *)
Lemma checks_unset_check_byte (v : byte) :
  checks xaa xbb x03 x11 v x00 = Byte.eqb v xea.
Proof. by destruct v. Qed.

Lemma checks_status_frame (v : byte) :
  checks xaa xbb x03 x11 v (byte.of_Z (byte.unsigned v + 0x16)) = true.
Proof. by destruct v. Qed.

Lemma encode_then_decode (s : state) (v : byte) :
  take 8 (mem s) = globals ->
  steps s (command ← injectInputToPayload OUTPUT v; extractInput command)
    (set_mem (mem s ++ [[xaa; xbb; x03; x11; v; x00]]) s)
    (Ret (if Byte.eqb v xea then (235, None)
          else (0, Some (errors_New "invalid response")))).
Proof.
  intros Ht. eapply steps_trans.
  - apply (injectInputToPayload_steps s OUTPUT v [xaa; xbb; x03; x11]).
    by apply template_loaded.
  - change (encode [xaa; xbb; x03; x11] v) with [xaa; xbb; x03; x11; v; x00].
    pose proof (extractInput_steps
                  (set_mem (mem s ++ [[xaa; xbb; x03; x11; v; x00]]) s)
                  (length (mem s)) xaa xbb x03 x11 v x00) as H.
    unfold decoded in H. rewrite checks_unset_check_byte in H.
    destruct (Byte.eqb v xea) eqn:E.
    + apply Byte.byte_dec_bl in E. subst v. apply H. apply lookup_fresh.
    + apply H. apply lookup_fresh.
Qed.

Lemma decode_status_frame (s : state) (v : byte) (response : slice) :
  mem s !! response
    = Some [xaa; xbb; x03; x11; v; byte.of_Z (byte.unsigned v + 0x16)] ->
  steps s (extractInput response) s (Ret (byte.unsigned v + 1, None)).
Proof.
  intros Hm.
  pose proof (extractInput_steps _ _ _ _ _ _ _ _ Hm) as H.
  unfold decoded in H. by rewrite checks_status_frame in H.
Qed.

(** C5, as the code has it. Decoding the status response for the
    parameter byte v, that is AA BB 03 11 v followed by v + 0x16 in byte
    arithmetic, returns v + 1.  Encoding v with the status-response
    template gives AA BB 03 11 v 00, since encoding sets byte 4 alone; the
    decoder answers "invalid response" to it, except for v = 0xEA, where
    it returns 235. *)
Theorem status_round_trip (s : state) (v : byte) :
  take 8 (mem s) = globals ->
  steps s (command ← injectInputToPayload OUTPUT v; extractInput command)
    (set_mem (mem s ++ [[xaa; xbb; x03; x11; v; x00]]) s)
    (Ret (if Byte.eqb v xea then (235, None)
          else (0, Some (errors_New "invalid response")))) /\
  (forall response,
     mem s !! response
       = Some [xaa; xbb; x03; x11; v; byte.of_Z (byte.unsigned v + 0x16)] ->
     steps s (extractInput response) s (Ret (byte.unsigned v + 1, None))).
Proof.
  intros Ht. split.
  - by apply encode_then_decode.
  - intros response. apply decode_status_frame.
Qed.

Lemma status_round_trip_witness :
  steps fresh_switch
    (command ← injectInputToPayload OUTPUT x02; extractInput command)
    (set_mem (globals ++ [[xaa; xbb; x03; x11; x02; x00]]) fresh_switch)
    (Ret (0, Some (errors_New "invalid response"))) /\
  steps status_state (extractInput 8) status_state (Ret (3, None)).
Proof.
  destruct (status_round_trip fresh_switch x02 eq_refl) as [H1 _].
  destruct (status_round_trip status_state x02 eq_refl) as [_ H2].
  split; [exact H1 | exact (H2 8%nat eq_refl)].
Defined.

(** C5, as specified, fails: encoding 2 with the status-response
    template and decoding the result recovers nothing. *)
Lemma round_trip_fails : ~ exists out, round_trip fresh_switch x02 out.
Proof.
  intros (out & s' & H).
  pose proof (encode_then_decode fresh_switch x02 eq_refl) as H'.
  destruct (steps_return_unique _ _ _ _ _ _ H H') as [_ E].
  discriminate E.
Qed.

(** * Sending and the pending-request marker *)

(** [send] calls [Write] first; the marker is its next operation, and
    only when [Write] returned no error. *)
Lemma send_write_first s command data n e c :
  mem s !! command = Some data ->
  next_write (conn s) (length data) = (n, e, c) ->
  steps s (send command) (log (Written data n e) (set_conn c s))
    match e with
    | Some failure => Ret (Some failure)
    | None => SendSw (if negb (n =? 6) then Ret (Some (wrong_amount n))
                      else Ret None)
    end.
Proof.
  intros Hm Hw. unfold send. norm.
  eapply steps_step; [|apply steps_here; reflexivity].
  cbn [step]. rewrite Hm, Hw. by destruct e.
Qed.

Lemma next_write_scripted c n e rest k :
  outgoing c = (n, e) :: rest ->
  next_write c k = (n, e, mkConn rest (incoming c)).
Proof. unfold next_write. by intros ->. Qed.

(** C10. When [Write] reports no error and a count other than 6, [send]
    returns the size-mismatch error, but it has set the marker before
    looking at the count: the marker stays behind. *)
Theorem send_size_mismatch (s : state) (command : slice)
    (data : list byte) (n : Z) (rest : list (Z * option error)) :
  mem s !! command = Some data ->
  outgoing (conn s) = (n, None) :: rest ->
  n <> 6 ->
  sw s = [] ->
  exists s',
    steps s (send command) s' (Ret (Some (wrong_amount n))) /\
    sw s' = [true] /\
    trace s' = trace s ++ [Written data n None; MarkerSet].
Proof.
  intros Hm Ho Hn Hsw.
  eexists. split; [|split].
  - eapply steps_trans.
    + eapply send_write_first; [done | by apply next_write_scripted].
    + eapply steps_step; [|apply steps_here; reflexivity].
      cbn [step sw log set_conn]. rewrite Hsw. cbn.
      apply Z.eqb_neq in Hn. by rewrite Hn.
  - reflexivity.
  - cbn. by rewrite <- app_assoc.
Qed.

Lemma send_size_mismatch_witness :
  exists s',
    steps short_write (send MUTE_BUZZER) s' (Ret (Some (wrong_amount 5))) /\
    sw s' = [true] /\
    trace s' = trace short_write
                 ++ [Written [xaa; xbb; x03; x02; x00; xee] 5 None; MarkerSet].
Proof.
  apply (send_size_mismatch short_write MUTE_BUZZER
           [xaa; xbb; x03; x02; x00; xee] 5 []);
    [reflexivity | reflexivity | lia | reflexivity].
Defined.

(** C7, as the code has it. [send] writes the command to the connection
    first.  The marker is set by its next operation, and only when the
    write returned no error; after a failed write [send] returns at once
    and no marker is set. *)
Theorem send_marks_after_write (s : state) (command : slice)
    (data : list byte) (n : Z) (e : option error) (c : connection) :
  mem s !! command = Some data ->
  next_write (conn s) (length data) = (n, e, c) ->
  steps s (send command) (log (Written data n e) (set_conn c s))
    match e with
    | Some failure => Ret (Some failure)
    | None => SendSw (if negb (n =? 6) then Ret (Some (wrong_amount n))
                      else Ret None)
    end.
Proof. apply send_write_first. Qed.

Lemma send_marks_after_write_witness :
  steps fresh_switch (send GET_CURRENT_INPUT)
    (log (Written [xaa; xbb; x03; x10; x00; xee] 6 None) fresh_switch)
    (SendSw (Ret None)).
Proof.
  apply (send_marks_after_write fresh_switch GET_CURRENT_INPUT
           [xaa; xbb; x03; x10; x00; xee] 6 None (mkConn [] []));
    reflexivity.
Defined.

(** C7, as specified, fails.  A reply that the receive loop reads
    between the write and the marker finds no marker and goes to the
    observer; the marker is set afterwards, and the caller then waits on
    an empty channel. *)
Lemma reply_overtakes_marker :
  let c := exec race_schedule
             (mkSystem race_start (call CallGetCurrentInput) receiveLoop) in
  trace (shared c)
    = [ Written [xaa; xbb; x03; x10; x00; xee] 6 None;
        WasRead [xaa; xbb; x03; x11; x02; x18] 6 None;
        ToObserver [xaa; xbb; x03; x11; x02; x18];
        MarkerSet ] /\
  marker_set_at_writes false (trace (shared c)) = false /\
  responses (shared c) = [] /\
  sw (shared c) = [true] /\
  step (shared c) (caller c) = None.
Proof. repeat split; reflexivity. Qed.

(** * The receive loop *)

#[local] Arguments read_into : simpl never.

(** One turn of the loop up to the [select]. *)
Lemma receiveLoop_reads s data e rest :
  incoming (conn s) = (data, e) :: rest ->
  steps s receiveLoop
    (log (WasRead (read_into data) (Z.of_nat (6 `min` length data)) e)
       (set_conn (mkConn (outgoing (conn s)) rest)
          (set_mem (mem s ++ [read_into data]) s)))
    match e with
    | Some failure => SendErr failure (Ret tt)
    | None =>
        SelectSw (SendResponses (length (mem s)) receiveLoop)
                 (SendPublic (length (mem s)) receiveLoop)
    end.
Proof.
  intros Hin. unfold receiveLoop. norm.
  eapply steps_step; [reflexivity|]. norm.
  eapply steps_step; [reflexivity|].
  eapply steps_step; [|apply steps_here; reflexivity].
  cbn [step set_mem mem conn]. rewrite lookup_fresh, Hin, insert_fresh.
  destruct e; reflexivity.
Qed.

(** C6. For every frame that the receive loop reads: when the marker is
    set, the loop clears it and its next operation sends the frame on
    [responses], to the waiting caller; when no marker is set, the marker
    channel is left alone and the next operation sends the frame on
    [Responses], to the observer.  The send goes through as soon as the
    channel has room, and the loop starts over. *)
Theorem receiveLoop_dispatch (s : state) (data : list byte)
    (rest : list (list byte * option error)) :
  incoming (conn s) = (data, None) :: rest ->
  let response := length (mem s) in
  exists s',
    mem s' !! response = Some (read_into data) /\
    responses s' = responses s /\
    Responses s' = Responses s /\
    match sw s with
    | _ :: markers =>
        sw s' = markers /\
        steps s receiveLoop s' (SendResponses response receiveLoop) /\
        (responses s = [] ->
         step s' (SendResponses response receiveLoop)
           = Some (log (ToWaiter (read_into data))
                     (set_responses [response] s'), receiveLoop))
    | [] =>
        sw s' = [] /\
        steps s receiveLoop s' (SendPublic response receiveLoop) /\
        (Responses s = [] ->
         step s' (SendPublic response receiveLoop)
           = Some (log (ToObserver (read_into data))
                     (set_Responses [response] s'), receiveLoop))
    end.
Proof.
  intros Hin response. subst response.
  pose proof (receiveLoop_reads s data None rest Hin) as Hread.
  destruct (sw s) as [|m markers] eqn:Hsw.
  - eexists. split; [|split; [|split; [|split; [|split]]]].
    5: { eapply steps_trans; [exact Hread|].
         eapply steps_step; [|apply steps_refl].
         cbn [step sw log set_conn set_mem]. rewrite Hsw. reflexivity. }
    + apply lookup_fresh.
    + reflexivity.
    + reflexivity.
    + exact Hsw.
    + intros Hroom. cbn [step Responses log set_conn set_mem].
      rewrite Hroom. unfold contents.
      cbn [mem log set_conn set_mem set_sw]. by rewrite lookup_fresh.
  - eexists. split; [|split; [|split; [|split; [|split]]]].
    5: { eapply steps_trans; [exact Hread|].
         eapply steps_step; [|apply steps_refl].
         cbn [step sw log set_conn set_mem]. rewrite Hsw. reflexivity. }
    + apply lookup_fresh.
    + reflexivity.
    + reflexivity.
    + reflexivity.
    + intros Hroom. cbn [step responses log set_conn set_mem set_sw].
      rewrite Hroom. unfold contents.
      cbn [mem log set_conn set_mem set_sw]. by rewrite lookup_fresh.
Qed.

Lemma receiveLoop_dispatch_witness :
  exists s',
    mem s' !! 8%nat = Some [xaa; xbb; x03; x11; x02; x18] /\
    responses s' = [] /\
    Responses s' = [] /\
    sw s' = [] /\
    steps awaited_reply receiveLoop s' (SendResponses 8 receiveLoop) /\
    (responses awaited_reply = [] ->
     step s' (SendResponses 8 receiveLoop)
       = Some (log (ToWaiter [xaa; xbb; x03; x11; x02; x18])
                 (set_responses [8%nat] s'), receiveLoop)).
Proof.
  exact (receiveLoop_dispatch awaited_reply [xaa; xbb; x03; x11; x02; x18] []
           eq_refl).
Defined.

(** * The templates are never written *)

Lemma frame_safe_bind {A B} b (p : go A) (f : A -> go B) :
  frame_safe b p -> (forall r, frame_safe b (f r)) -> frame_safe b (bind p f).
Proof.
  intros Hp Hf. induction p; cbn in *; intuition eauto.
Qed.

(** One operation of a program that is [frame_safe] above [b] leaves the
    arrays below [b] as they are. *)
Lemma step_frame {R} b s (p : go R) s' p' :
  frame_safe b p -> (b <= length (mem s))%nat ->
  step s p = Some (s', p') ->
  frame_safe b p' /\ (b <= length (mem s'))%nat /\
  take b (mem s') = take b (mem s).
Proof.
  intros Hp Hb Hstep. destruct p; cbn in Hp, Hstep;
    repeat match type of Hstep with
           | match ?x with _ => _ end = _ => destruct x eqn:?
           | (let '(_, _) := ?x in _) = _ => destruct x eqn:?
           end;
    simplify_eq; cbn [mem set_mem set_conn set_sw set_err set_responses
                      set_Responses log];
    rewrite ?length_app, ?length_insert.
  all: try (split; [|split]; [intuition eauto; fail | lia | reflexivity ]).
  - split; [|split]; [apply Hp; lia | lia | by apply take_app_le].
  - split; [|split]; [tauto | lia | apply take_insert_ge; tauto].
  - split; [|split]; [tauto | lia | apply take_insert_ge; tauto].
  - split; [|split]; [exact I | lia | reflexivity].
  - split; [|split]; [exact I | lia | reflexivity].
  - split; [|split]; [apply Hp | lia | apply take_insert_ge; tauto].
  - split; [|split]; [|lia | reflexivity].
    destruct Hp as [Hbody Hk]. apply frame_safe_bind; [done|].
    by intros [].
Qed.

Lemma sys_step_frame b g c :
  system_safe b c ->
  system_safe b (sys_step g c) /\
  take b (mem (shared (sys_step g c))) = take b (mem (shared c)).
Proof.
  intros (Hc & Hr & Hb). destruct g; cbn.
  - destruct (step (shared c) (caller c)) as [[s' p']|] eqn:Hstep.
    + destruct (step_frame _ _ _ _ _ Hc Hb Hstep) as (? & ? & ?).
      by repeat split.
    + by repeat split.
  - destruct (step (shared c) (receiver c)) as [[s' p']|] eqn:Hstep.
    + destruct (step_frame _ _ _ _ _ Hr Hb Hstep) as (? & ? & ?).
      by repeat split.
    + by repeat split.
Qed.

Lemma exec_frame b schedule c :
  system_safe b c ->
  take b (mem (shared (exec schedule c))) = take b (mem (shared c)).
Proof.
  revert c. induction schedule as [|g schedule IH]; intros c Hc; [done|].
  destruct (sys_step_frame b g c Hc) as [Hc' Heq].
  cbn. unfold exec in IH. by rewrite IH.
Qed.

Lemma injectInputToPayload_safe payload input :
  frame_safe 8 (injectInputToPayload payload input).
Proof. cbn. intuition. Qed.

Lemma send_safe command : frame_safe 8 (send command).
Proof. cbn. intros n [e|]; cbn; [done|]. by destruct (negb (n =? 6)). Qed.

Lemma and_then_safe b (x y : go bool) :
  frame_safe b x -> frame_safe b y -> frame_safe b (x &&& y).
Proof.
  intros Hx Hy. apply frame_safe_bind; [done|]. by intros [].
Qed.

Lemma index_is_safe b s i v : frame_safe b (index_is s i v).
Proof. by cbn. Qed.

Lemma extractInput_safe response : frame_safe 8 (extractInput response).
Proof.
  apply frame_safe_bind.
  - repeat apply and_then_safe; try apply index_is_safe. by cbn.
  - intros []; by cbn.
Qed.

Lemma await_safe : frame_safe 8 (response ← recv_responses; extractInput response).
Proof. cbn. intros response. apply extractInput_safe. Qed.

Lemma range_checked_safe (check : bool) (refuse : Z * option error)
    (payload : slice) (input : byte) :
  frame_safe 8
    (if check then Ret refuse
     else command ← injectInputToPayload payload input;
          send command;; response ← recv_responses; extractInput response).
Proof.
  destruct check; [done|].
  apply frame_safe_bind; [apply injectInputToPayload_safe|]. intros command.
  apply frame_safe_bind; [apply send_safe|]. intros _. apply await_safe.
Qed.

Lemma call_safe op : frame_safe 8 (call op).
Proof.
  destruct op; (apply frame_safe_bind; [|done]);
    try apply range_checked_safe; try apply send_safe.
  apply frame_safe_bind; [apply send_safe|]. intros _. apply await_safe.
Qed.

Lemma client_safe ops : frame_safe 8 (client ops).
Proof.
  induction ops as [|op ops IH]; [done|].
  cbn. apply frame_safe_bind; [apply call_safe | done].
Qed.

Lemma receiveLoop_safe : frame_safe 8 receiveLoop.
Proof.
  cbn. split; [|done]. intros l Hl. split; [done|].
  intros n [e|]; by cbn.
Qed.

(** C8. [injectInputToPayload] allocates a new array of six bytes and
    writes into that one alone: memory afterwards is memory before with
    the new frame behind it.  So whatever calls a client makes, with
    whatever parameters, and however the scheduler interleaves them with
    the receive loop, the eight templates keep their bytes. *)
Theorem templates_unchanged (s : state) :
  take 8 (mem s) = globals ->
  (forall payload input tmpl,
     mem s !! payload = Some tmpl ->
     steps s (injectInputToPayload payload input)
       (set_mem (mem s ++ [encode tmpl input]) s) (Ret (length (mem s)))) /\
  (forall ops schedule,
     take 8 (mem (shared (exec schedule
                            (mkSystem s (client ops) receiveLoop))))
       = globals).
Proof.
  intros Ht. split.
  - intros payload input tmpl Hp.
    exact (injectInputToPayload_steps s payload input tmpl Ret Hp).
  - intros ops schedule. rewrite <- Ht. apply exec_frame.
    split; [apply client_safe|].
    split; [apply receiveLoop_safe|]. cbn [shared].
    assert (length (take 8 (mem s)) = 8%nat) as Hl by (by rewrite Ht).
    rewrite length_take in Hl. lia.
Qed.

Lemma templates_unchanged_witness :
  steps fresh_switch (injectInputToPayload SWITCH_INPUT x03)
    (set_mem (globals ++ [[xaa; xbb; x03; x01; x03; xee]]) fresh_switch)
    (Ret 8%nat) /\
  take 8 (mem (shared (exec race_schedule
                         (mkSystem race_start
                            (client [CallSwitchInput 3; CallMuteBuzzer])
                            receiveLoop))))
    = globals.
Proof.
  destruct (templates_unchanged fresh_switch eq_refl) as [H1 _].
  destruct (templates_unchanged race_start eq_refl) as [_ H2].
  split.
  - exact (H1 SWITCH_INPUT x03 [xaa; xbb; x03; x01; x00; xee] eq_refl).
  - exact (H2 [CallSwitchInput 3; CallMuteBuzzer] race_schedule).
Defined.

(** * Only six-byte frames reach the decoder *)

Lemma hands_over_six_mono {R} (known known' : slice -> Prop) (p : go R) :
  (forall b, known b -> known' b) ->
  hands_over_six known p -> hands_over_six known' p.
Proof.
  revert known known'. induction p; cbn; intros known known' Hsub Hp;
    try solve [intuition eauto].
  intros l. eapply H; [|apply Hp]. cbn. intuition.
Qed.

Lemma hands_over_six_bind {A B} known (p : go A) (f : A -> go B) :
  hands_over_six known p -> (forall r, hands_over_six known (f r)) ->
  hands_over_six known (bind p f).
Proof.
  revert known. induction p; cbn; intros known Hp Hf;
    try solve [intuition eauto].
  intros l. apply H; [apply Hp|].
  intros r. eapply hands_over_six_mono; [|apply Hf]. cbn. tauto.
Qed.

Lemma six_insert (m : list (list byte)) i old new b d :
  m !! i = Some old -> length new = length old ->
  m !! b = Some d -> length d = 6%nat ->
  exists d0, <[i := new]> m !! b = Some d0 /\ length d0 = 6%nat.
Proof.
  intros Hi Hn Hb Hd. destruct (decide (i = b)) as [->|Hne].
  - exists new. split; [|congruence].
    apply list_lookup_insert_eq. by eapply lookup_lt_Some.
  - exists d. by rewrite list_lookup_insert_ne.
Qed.

(** No operation changes the length of an array. *)
Lemma step_six {R} s (p : go R) s' p' b :
  step s p = Some (s', p') -> six s b -> six s' b.
Proof.
  intros Hstep (d & Hd & Hl). unfold six.
  destruct p; cbn in Hstep;
    repeat match type of Hstep with
           | match ?x with _ => _ end = _ => destruct x eqn:?
           | (let '(_, _) := ?x in _) = _ => destruct x eqn:?
           end;
    simplify_eq; cbn [mem set_mem set_conn set_sw set_err set_responses
                      set_Responses log]; eauto.
  - exists d. split; [by apply lookup_old | done].
  - eapply six_insert; eauto. apply length_copy.
  - eapply six_insert; eauto. apply length_insert.
  - eapply six_insert; eauto. apply length_copy.
Qed.

Lemma step_hands_over_six {R} known s (p : go R) s' p' :
  (forall b, known b -> six s b) ->
  (forall b, b ∈ responses s -> six s b) ->
  hands_over_six known p ->
  step s p = Some (s', p') ->
  (forall b, b ∈ responses s' -> six s' b) /\
  exists known', (forall b, known' b -> six s' b) /\
                 hands_over_six known' p'.
Proof.
  intros Hknown Hresp Hp Hstep.
  assert (forall b, six s b -> six s' b) as Hkeep
    by (intros b; by eapply step_six).
  destruct p; cbn in Hp; cbn in Hstep;
    repeat match type of Hstep with
           | match ?x with _ => _ end = _ => destruct x eqn:?
           | (let '(_, _) := ?x in _) = _ => destruct x eqn:?
           end;
    simplify_eq.
  all: try (split; [by eauto | exists known; split; [by eauto |];
                    first [done | tauto | by apply Hp]]).
  - split; [by eauto|].
    exists (fun b => (n = 6%nat /\ b = length (mem s)) \/ known b).
    split; [|apply Hp].
    intros b [[-> ->]|Hb]; [|by eauto].
    eexists. split; [apply lookup_fresh | apply length_replicate].
  - unfold chan_send in *. destruct (_ <? _)%nat; simplify_eq.
    destruct Hp as [Hs0 Hp']. split.
    + intros b [Hb| ->%list_elem_of_singleton]%elem_of_app; by eauto.
    + exists known. by eauto.
  - split.
    + intros b Hb. apply Hkeep, Hresp. by right.
    + exists known. by eauto.
  - split; [by eauto|]. exists known. split; [by eauto|].
    destruct Hp as [Hbody Hk]. apply hands_over_six_bind; [done|].
    by intros [].
Qed.

Lemma sys_step_six g c : six_invariant c -> six_invariant (sys_step g c).
Proof.
  intros (Hresp & (kc & Hkc & Hc) & (kr & Hkr & Hr)). destruct g; cbn.
  - destruct (step (shared c) (caller c)) as [[s' p']|] eqn:Hstep;
      [|by repeat split; eauto].
    destruct (step_hands_over_six _ _ _ _ _ Hkc Hresp Hc Hstep)
      as (Hresp' & kc' & Hkc' & Hc').
    repeat split; cbn; eauto.
    exists kr. split; [|done]. intros b Hb. eapply step_six; eauto.
  - destruct (step (shared c) (receiver c)) as [[s' p']|] eqn:Hstep;
      [|by repeat split; eauto].
    destruct (step_hands_over_six _ _ _ _ _ Hkr Hresp Hr Hstep)
      as (Hresp' & kr' & Hkr' & Hr').
    repeat split; cbn; eauto.
    exists kc. split; [|done]. intros b Hb. eapply step_six; eauto.
Qed.

Lemma exec_six schedule c : six_invariant c -> six_invariant (exec schedule c).
Proof.
  revert c. induction schedule as [|g schedule IH]; intros c Hc; [done|].
  cbn. apply IH. by apply sys_step_six.
Qed.

Lemma send_hands_over known command : hands_over_six known (send command).
Proof. cbn. intros n [e|]; cbn; [done|]. by destruct (negb (n =? 6)). Qed.

Lemma extractInput_hands_over known response :
  hands_over_six known (extractInput response).
Proof.
  apply hands_over_six_bind.
  - unfold isValidOutput, and_then.
    repeat (apply hands_over_six_bind; [|intros []; try done]); by cbn.
  - intros []; by cbn.
Qed.

Lemma call_hands_over op : hands_over_six (fun _ => False) (call op).
Proof.
  assert (forall known,
            hands_over_six known
              (response ← recv_responses; extractInput response)) as Hawait.
  { intros known. cbn. intros response. apply extractInput_hands_over. }
  assert (forall (check : bool) refuse payload input,
            hands_over_six (fun _ => False)
              (if check then Ret refuse
               else command ← injectInputToPayload payload input;
                    send command;;
                    response ← recv_responses; extractInput response))
    as Hchecked.
  { intros [] ? ? ?; [done|].
    apply hands_over_six_bind; [by cbn|]. intros command.
    apply hands_over_six_bind; [apply send_hands_over|]. intros _.
    apply Hawait. }
  destruct op; (apply hands_over_six_bind; [|done]);
    try apply Hchecked; try apply send_hands_over.
  apply hands_over_six_bind; [apply send_hands_over|]. intros _.
  apply Hawait.
Qed.

Lemma client_hands_over ops : hands_over_six (fun _ => False) (client ops).
Proof.
  induction ops as [|op ops IH]; [done|].
  cbn. apply hands_over_six_bind; [apply call_hands_over | done].
Qed.

Lemma receiveLoop_hands_over : hands_over_six (fun _ => False) receiveLoop.
Proof.
  cbn. split; [|done]. intros l n [e|]; cbn; [done|]. tauto.
Qed.

(** Whatever the client calls and however the goroutines interleave, the
    slices that wait in [responses], the ones [extractInput] will be given,
    point to six bytes. *)
Lemma responses_hold_six_bytes ops schedule conn0 :
  let c := exec schedule
             (mkSystem (connected conn0) (client ops) receiveLoop) in
  forall b, b ∈ responses (shared c) -> six (shared c) b.
Proof.
  apply exec_six. split; [|split].
  - intros b Hb. by apply elem_of_nil in Hb.
  - exists (fun _ => False). split; [done | apply client_hands_over].
  - exists (fun _ => False). split; [done | apply receiveLoop_hands_over].
Qed.

(** * Markers follow writes, under every schedule *)

Lemma marks_after_writes_mono {R} n m (p : go R) :
  (n <= m)%nat -> marks_after_writes n p -> marks_after_writes m p.
Proof.
  revert n m. induction p; cbn; intros n' m' Hle Hp;
    try solve [intuition eauto].
  - intros n0 e. eapply H; [|apply Hp]. destruct e; lia.
  - destruct n' as [|n']; [done|]. destruct m' as [|m']; [lia|].
    eapply IHp; [|exact Hp]. lia.
Qed.

Lemma marks_after_writes_bind {A B} n (p : go A) (f : A -> go B) :
  marks_after_writes n p -> (forall r, marks_after_writes 0 (f r)) ->
  marks_after_writes n (bind p f).
Proof.
  revert n. induction p; cbn; intros n' Hp Hf; try solve [intuition eauto].
  - eapply marks_after_writes_mono; [|apply Hf]. lia.
  - destruct n' as [|n']; [done|]. by apply IHp.
Qed.

Lemma credit_log t e : credit (t ++ [e]) = credit_step (credit t) e.
Proof. unfold credit. by rewrite foldl_app. Qed.

Lemma step_credit {R} n d s (p : go R) s' p' :
  marks_after_writes n p ->
  credit (trace s) = Some (n + d)%nat ->
  step s p = Some (s', p') ->
  exists n', marks_after_writes n' p' /\
             credit (trace s') = Some (n' + d)%nat.
Proof.
  intros Hp Hc Hstep.
  destruct p; cbn in Hp; cbn in Hstep;
    repeat match type of Hstep with
           | match ?x with _ => _ end = _ => destruct x eqn:?
           | (let '(_, _) := ?x in _) = _ => destruct x eqn:?
           end;
    simplify_eq;
    cbn [trace set_mem set_conn set_sw set_err set_responses
         set_Responses log];
    rewrite ?credit_log, ?Hc.
  all: try (exists n; split; [first [done | tauto | by apply Hp] | done]).
  - destruct o as [failure|].
    + exists n. split; [apply (Hp z (Some failure)) | done].
    + exists (S n). split; [apply (Hp z None) | done].
  - destruct n as [|n]; [done|]. exists n. by split.
  - exists n. split; [|done].
    destruct Hp as [Hbody Hk].
    eapply marks_after_writes_mono; [apply Nat.le_0_l|].
    apply marks_after_writes_bind; [done|]. by intros [].
Qed.

Lemma sys_step_credit g c : credit_invariant c -> credit_invariant (sys_step g c).
Proof.
  intros (n & m & Hcr & Hc & Hr). destruct g; cbn.
  - destruct (step (shared c) (caller c)) as [[s' p']|] eqn:Hstep;
      [|by exists n, m].
    destruct (step_credit _ _ _ _ _ _ Hc Hcr Hstep) as (n' & Hc' & Hcr').
    by exists n', m.
  - destruct (step (shared c) (receiver c)) as [[s' p']|] eqn:Hstep;
      [|by exists n, m].
    rewrite Nat.add_comm in Hcr.
    destruct (step_credit _ _ _ _ _ _ Hr Hcr Hstep) as (m' & Hr' & Hcr').
    exists n, m'. by rewrite Nat.add_comm.
Qed.

Lemma exec_credit schedule c :
  credit_invariant c -> credit_invariant (exec schedule c).
Proof.
  revert c. induction schedule as [|g schedule IH]; intros c Hc; [done|].
  cbn. apply IH. by apply sys_step_credit.
Qed.

Lemma send_marks_after_writes command : marks_after_writes 0 (send command).
Proof. cbn. intros n [e|]; cbn; [done|]. by destruct (negb (n =? 6)). Qed.

Lemma extractInput_marks response : marks_after_writes 0 (extractInput response).
Proof.
  apply marks_after_writes_bind.
  - unfold isValidOutput, and_then.
    repeat (apply marks_after_writes_bind; [|intros []; try done]); by cbn.
  - intros []; by cbn.
Qed.

Lemma call_marks_after_writes op : marks_after_writes 0 (call op).
Proof.
  assert (marks_after_writes 0
            (response ← recv_responses; extractInput response)) as Hawait.
  { cbn. intros response. apply extractInput_marks. }
  assert (forall (check : bool) refuse payload input,
            marks_after_writes 0
              (if check then Ret refuse
               else command ← injectInputToPayload payload input;
                    send command;;
                    response ← recv_responses; extractInput response))
    as Hchecked.
  { intros [] ? ? ?; [done|].
    apply marks_after_writes_bind; [by cbn|]. intros command.
    apply marks_after_writes_bind; [apply send_marks_after_writes|].
    intros _. apply Hawait. }
  destruct op; (apply marks_after_writes_bind; [|done]);
    try apply Hchecked; try apply send_marks_after_writes.
  apply marks_after_writes_bind; [apply send_marks_after_writes|].
  intros _. apply Hawait.
Qed.

Lemma client_marks_after_writes ops : marks_after_writes 0 (client ops).
Proof.
  induction ops as [|op ops IH]; [done|].
  cbn. apply marks_after_writes_bind; [apply call_marks_after_writes | done].
Qed.

Lemma receiveLoop_marks_nothing : marks_after_writes 0 receiveLoop.
Proof. cbn. split; [|done]. intros l n [e|]; by cbn. Qed.

(** Whatever the client calls and however the goroutines interleave, at
    every moment each marker that was set has a successful write of its
    own before it. *)
Lemma markers_follow_writes ops schedule conn0 :
  is_Some (credit (trace (shared (exec schedule
             (mkSystem (connected conn0) (client ops) receiveLoop))))).
Proof.
  destruct (exec_credit schedule
              (mkSystem (connected conn0) (client ops) receiveLoop))
    as (n & m & Hcr & _).
  - exists 0%nat, 0%nat. split; [done|]. split.
    + apply client_marks_after_writes.
    + apply receiveLoop_marks_nothing.
  - by rewrite Hcr.
Qed.

(** So [extractInput], on whatever waits in [responses], runs its five
    comparisons on six bytes and returns: it cannot index out of range. *)
Lemma extractInput_in_system ops schedule conn0 :
  let c := exec schedule
             (mkSystem (connected conn0) (client ops) receiveLoop) in
  forall b, b ∈ responses (shared c) ->
    exists b0 b1 b2 b3 b4 b5,
      mem (shared c) !! b = Some [b0; b1; b2; b3; b4; b5] /\
      steps (shared c) (extractInput b) (shared c)
        (Ret (decoded b0 b1 b2 b3 b4 b5)).
Proof.
  intros c b Hb.
  destruct (responses_hold_six_bytes ops schedule conn0 b Hb)
    as (d & Hd & Hl).
  destruct (six_bytes d Hl) as (b0 & b1 & b2 & b3 & b4 & b5 & ->).
  exists b0, b1, b2, b3, b4, b5. split; [done|].
  by apply extractInput_steps.
Qed.

(** * The encoder on any template *)

Lemma encode_length tmpl input : length (encode tmpl input) = 6%nat.
Proof.
  unfold encode. rewrite length_insert.
  apply (length_copy (replicate 6 x00) tmpl).
Qed.

Lemma encode_lookup tmpl input (i : nat) :
  (i < 6)%nat ->
  encode tmpl input !! i
    = Some (if decide (i = 4%nat) then input else template_byte tmpl i).
Proof.
  intros Hi. unfold encode, template_byte.
  pose proof (length_copy (replicate 6 x00) tmpl) as Hl. cbn zeta in Hl.
  rewrite length_replicate in *.
  set (n := (6 `min` length tmpl)%nat) in *.
  assert (length (take n tmpl) = n) as Hn by (rewrite length_take; lia).
  destruct (decide (i = 4%nat)) as [->|Hne].
  - apply list_lookup_insert_eq. rewrite Hl. lia.
  - rewrite list_lookup_insert_ne by done.
    destruct (decide (i < length tmpl)%nat) as [Hlt|Hge].
    + rewrite lookup_app_l by lia.
      rewrite lookup_take_lt by lia.
      by destruct (lookup_lt_is_Some_2 tmpl i Hlt) as [x ->].
    + rewrite lookup_app_r by lia.
      rewrite Hn, lookup_drop, (lookup_ge_None_2 tmpl i) by lia.
      replace (n + (i - n))%nat with i by lia.
      by apply lookup_replicate_2.
Qed.

(** X1. [injectInputToPayload] on any template, short, long or empty:
    it returns a new array of exactly six bytes and leaves every array
    that was there untouched; byte 4 is the input, and every other byte
    is the byte of the template at that place, or zero where the template
    has ended.  Bytes of the template from the seventh on are dropped. *)
Theorem injectInputToPayload_frame (s : state) (payload : slice)
    (input : byte) (tmpl : list byte) :
  mem s !! payload = Some tmpl ->
  exists frame,
    steps s (injectInputToPayload payload input)
      (set_mem (mem s ++ [frame]) s) (Ret (length (mem s))) /\
    length frame = 6%nat /\
    frame !! 4%nat = Some input /\
    forall i, (i < 6)%nat -> i <> 4%nat ->
      frame !! i = Some (template_byte tmpl i).
Proof.
  intros Hp. exists (encode tmpl input). split; [|split; [|split]].
  - exact (injectInputToPayload_steps s payload input tmpl Ret Hp).
  - apply encode_length.
  - by rewrite encode_lookup by lia.
  - intros i Hi Hne. rewrite encode_lookup by done. by rewrite decide_False.
Qed.

Lemma injectInputToPayload_frame_witness :
  exists frame,
    steps fresh_switch (injectInputToPayload OUTPUT x02)
      (set_mem (globals ++ [frame]) fresh_switch) (Ret 8%nat) /\
    length frame = 6%nat /\
    frame !! 4%nat = Some x02 /\
    forall i, (i < 6)%nat -> i <> 4%nat ->
      frame !! i = Some (template_byte [xaa; xbb; x03; x11] i).
Proof.
  exact (injectInputToPayload_frame fresh_switch OUTPUT x02
           [xaa; xbb; x03; x11] eq_refl).
Defined.

(** * The decoder away from six bytes *)

Lemma extractInput_long s response b0 b1 b2 b3 b4 b5 more :
  mem s !! response = Some ([b0; b1; b2; b3; b4; b5] ++ more) ->
  steps s (extractInput response) s (Ret (decoded b0 b1 b2 b3 b4 b5)).
Proof.
  intros Hm. unfold extractInput, isValidOutput, decoded, checks. norm.
  local_run Hm.
Qed.

Ltac eqb_facts :=
  repeat match goal with
         | H : Byte.eqb _ _ = true |- _ => apply Byte.byte_dec_bl in H
         | H : Byte.eqb _ _ = false |- _ => apply Byte.eqb_false in H
         end.

Lemma extractInput_short s response frame :
  mem s !! response = Some frame ->
  (length frame < 6)%nat ->
  steps s (extractInput response) s
    (if bool_decide (take 4 frame = take (length frame) [xaa; xbb; x03; x11])
     then Panic "index out of range"
     else Ret (0, Some (errors_New "invalid response"))).
Proof.
  intros Hm Hl.
  destruct frame as [|b0 [|b1 [|b2 [|b3 [|b4 [|b5 more]]]]]];
    cbn in Hl; try lia;
    unfold extractInput, isValidOutput; norm; cbn [length take];
    local_run Hm; eqb_facts; subst;
    case_bool_decide; simplify_eq; try done;
    apply steps_here; reflexivity.
Qed.

(** X2. [extractInput] of tesmart-commands.go looks at no length.  Given
    six bytes or more it decodes the first six and ignores the rest.
    Given fewer than six it panics with an index out of range when the
    bytes it has agree with the marker AA BB 03 11 as far as they go, and
    returns "invalid response" only when one of them differs. *)
Theorem extractInput_checks_no_length (s : state) (response : slice)
    (frame : list byte) :
  mem s !! response = Some frame ->
  ((6 <= length frame)%nat ->
   exists b0 b1 b2 b3 b4 b5,
     take 6 frame = [b0; b1; b2; b3; b4; b5] /\
     steps s (extractInput response) s (Ret (decoded b0 b1 b2 b3 b4 b5))) /\
  ((length frame < 6)%nat ->
   steps s (extractInput response) s
     (if bool_decide (take 4 frame = take (length frame) [xaa; xbb; x03; x11])
      then Panic "index out of range"
      else Ret (0, Some (errors_New "invalid response")))).
Proof.
  intros Hm. split.
  - intros Hl.
    destruct frame as [|b0 [|b1 [|b2 [|b3 [|b4 [|b5 more]]]]]];
      cbn in Hl; try lia.
    exists b0, b1, b2, b3, b4, b5. split; [done|].
    by apply (extractInput_long s response b0 b1 b2 b3 b4 b5 more).
  - by apply extractInput_short.
Qed.

Lemma extractInput_checks_no_length_witness :
  steps long_reply (extractInput 8) long_reply (Ret (3, None)) /\
  steps short_reply (extractInput 8) short_reply (Panic "index out of range").
Proof.
  destruct (extractInput_checks_no_length long_reply 8%nat
              [xaa; xbb; x03; x11; x02; x18; x00] eq_refl) as [Hlong _].
  destruct (extractInput_checks_no_length short_reply 8%nat
              [xaa; xbb; x03; x11; x02] eq_refl) as [_ Hshort].
  split.
  - destruct Hlong as (b0 & b1 & b2 & b3 & b4 & b5 & Ht & H); [cbn; lia|].
    cbn in Ht. injection Ht as <- <- <- <- <- <-. exact H.
  - apply Hshort. cbn. lia.
Defined.

(** * What the decoder returns *)

Lemma check_byte_unique (b4 b5 : byte) :
  Byte.eqb (byte_sub b5 b4) x16 = true ->
  b5 = byte.of_Z (byte.unsigned b4 + 0x16).
Proof.
  intros H%byte_sub_x16. apply byte.unsigned_inj.
  rewrite byte.unsigned_of_Z. unfold byte.wrap.
  pose proof (byte.unsigned_range b4). pose proof (byte.unsigned_range b5).
  change (2 ^ 8) with 256 in *.
  Z.div_mod_to_equations. lia.
Qed.

Lemma decoded_success b0 b1 b2 b3 b4 b5 n :
  decoded b0 b1 b2 b3 b4 b5 = (n, None) <->
  1 <= n <= 256 /\
  [b0; b1; b2; b3; b4; b5] = status_frame (byte.of_Z (n - 1)).
Proof.
  unfold decoded, status_frame. split.
  - destruct (checks b0 b1 b2 b3 b4 b5) eqn:Hc; [|discriminate].
    intros [= <-].
    unfold checks in Hc. rewrite !andb_true_iff in Hc.
    destruct Hc as ((((H0 & H1) & H2) & H3) & Hc).
    apply Byte.byte_dec_bl in H0, H1, H2, H3. subst.
    pose proof (byte.unsigned_range b4). change (2 ^ 8) with 256 in *.
    split; [lia|].
    replace (byte.unsigned b4 + 1 - 1) with (byte.unsigned b4) by lia.
    rewrite byte.of_Z_unsigned. by rewrite (check_byte_unique b4 b5 Hc) at 1.
  - intros [Hn [= -> -> -> -> -> ->]].
    rewrite checks_status_frame.
    rewrite byte_of_small by lia. f_equal. lia.
Qed.

(** X3. [ExtractInput] returns a number without error exactly for the 256
    status responses AA BB 03 11 v (v + 0x16), and the number is v + 1: it
    lies between 1 and 256 and names the frame it came from.  So 0 is
    never a decoded input, and two different accepted frames never decode
    to the same number.  [extractInput] does the same on six bytes. *)
Theorem ExtractInput_success (s : state) (response : slice)
    (frame : list byte) (n : Z) :
  mem s !! response = Some frame ->
  (steps s (Part000.ExtractInput response) s (Ret (n, None)) <->
   1 <= n <= 256 /\ frame = status_frame (byte.of_Z (n - 1))) /\
  (length frame = 6%nat ->
   (steps s (extractInput response) s (Ret (n, None)) <->
    1 <= n <= 256 /\ frame = status_frame (byte.of_Z (n - 1)))).
Proof.
  intros Hm. split; [|intros Hl]; split.
  - intros Hrun. destruct (decide (length frame = 6%nat)) as [Hl|Hl].
    + destruct (six_bytes frame Hl) as (b0 & b1 & b2 & b3 & b4 & b5 & ->).
      pose proof (ExtractInput_steps _ _ _ _ _ _ _ _ Hm) as Hdec.
      destruct (steps_return_unique _ _ _ _ _ _ Hrun Hdec) as [_ E].
      by apply decoded_success.
    + pose proof (ExtractInput_wrong_length _ _ _ Hm Hl) as Herr.
      destruct (steps_return_unique _ _ _ _ _ _ Hrun Herr) as [_ E].
      discriminate E.
  - intros [Hn ->].
    pose proof (ExtractInput_steps _ _ _ _ _ _ _ _ Hm) as Hdec.
    by rewrite (proj2 (decoded_success _ _ _ _ _ _ n)) in Hdec.
  - intros Hrun.
    destruct (six_bytes frame Hl) as (b0 & b1 & b2 & b3 & b4 & b5 & ->).
    pose proof (extractInput_steps _ _ _ _ _ _ _ _ Hm) as Hdec.
    destruct (steps_return_unique _ _ _ _ _ _ Hrun Hdec) as [_ E].
    by apply decoded_success.
  - intros [Hn ->].
    pose proof (extractInput_steps _ _ _ _ _ _ _ _ Hm) as Hdec.
    by rewrite (proj2 (decoded_success _ _ _ _ _ _ n)) in Hdec.
Qed.

Lemma ExtractInput_success_witness :
  steps status_state (Part000.ExtractInput 8) status_state (Ret (3, None)) <->
  1 <= 3 <= 256 /\
  [xaa; xbb; x03; x11; x02; x18] = status_frame (byte.of_Z (3 - 1)).
Proof.
  exact (proj1 (ExtractInput_success status_state 8%nat
                  [xaa; xbb; x03; x11; x02; x18] 3 eq_refl)).
Defined.

(** * Commands and the marker they leave *)

(** [send], when every byte is accepted and [sw] has room. *)
Lemma send_accepted {R} s command data (k : option error -> go R) :
  mem s !! command = Some data ->
  length data = 6%nat ->
  outgoing (conn s) = [] ->
  sw s = [] ->
  steps s (send command ≫= k)
    (log MarkerSet (set_sw [true] (log (Written data 6 None) s)))
    (k None).
Proof.
  intros Hm Hl Ho Hsw. unfold send. norm.
  eapply steps_step.
  { cbn [step]. rewrite Hm. unfold next_write. rewrite Ho, Hl. reflexivity. }
  eapply steps_step.
  { norm. cbn [step sw log set_conn]. rewrite Hsw. reflexivity. }
  apply steps_here; [|reflexivity].
  destruct s as [m [o i] ? ? ? ? ?]. cbn in *. by subst.
Qed.

Lemma send_accepted_alone s command data :
  mem s !! command = Some data ->
  length data = 6%nat ->
  outgoing (conn s) = [] ->
  sw s = [] ->
  steps s (send command)
    (log MarkerSet (set_sw [true] (log (Written data 6 None) s)))
    (Ret None).
Proof.
  intros Hm Hl Ho Hsw. unfold send. norm.
  eapply steps_step.
  { cbn [step]. rewrite Hm. unfold next_write. rewrite Ho, Hl. reflexivity. }
  eapply steps_step.
  { norm. cbn [step sw log set_conn]. rewrite Hsw. reflexivity. }
  apply steps_here; [|reflexivity].
  destruct s as [m [o i] ? ? ? ? ?]. cbn in *. by subst.
Qed.

(** [send] up to its [Write], with what comes after the call. *)
Lemma send_written {R} s command data n e c (k : option error -> go R) :
  mem s !! command = Some data ->
  next_write (conn s) (length data) = (n, e, c) ->
  steps s (send command ≫= k) (log (Written data n e) (set_conn c s))
    match e with
    | Some failure => k (Some failure)
    | None => SendSw (if negb (n =? 6) then k (Some (wrong_amount n))
                      else k None)
    end.
Proof.
  intros Hm Hw. unfold send. norm.
  eapply steps_step; [|apply steps_here; reflexivity].
  cbn [step]. rewrite Hm, Hw. destruct e; [done|].
  by destruct (negb (n =? 6)).
Qed.

(** X4. Two commands in a row, with no frame from the device in between:
    the first returns and leaves its marker in [sw]; the second writes its
    bytes to the connection and then waits on the full [sw], until the
    receive loop takes the marker away. *)
Theorem second_command_waits (s : state) (first second : slice)
    (d1 d2 : list byte) :
  mem s !! first = Some d1 ->
  mem s !! second = Some d2 ->
  length d1 = 6%nat ->
  length d2 = 6%nat ->
  outgoing (conn s) = [] ->
  sw s = [] ->
  exists s1 p1,
    steps s (send first;; send second) s1 p1 /\
    waiting s1 p1 /\
    sw s1 = [true] /\
    trace s1
      = trace s ++ [Written d1 6 None; MarkerSet; Written d2 6 None].
Proof.
  intros H1 H2 Hl1 Hl2 Ho Hsw.
  set (s0 := log MarkerSet (set_sw [true] (log (Written d1 6 None) s))).
  assert (next_write (conn s0) (length d2) = (6, None, conn s)) as Hw.
  { cbn [s0 conn log set_sw]. unfold next_write. by rewrite Ho, Hl2. }
  pose proof (send_write_first s0 second d2 6 None (conn s) H2 Hw) as Hsecond.
  eexists _, _. split; [|split; [|split]].
  - eapply steps_trans; [|exact Hsecond].
    exact (send_accepted s first d1 (fun _ => send second) H1 Hl1 Ho Hsw).
  - split; [reflexivity | exact I].
  - reflexivity.
  - cbn. by rewrite <- !app_assoc.
Qed.

Lemma second_command_waits_witness :
  exists s1 p1,
    steps fresh_switch (send MUTE_BUZZER;; send UNMUTE_BUZZER) s1 p1 /\
    waiting s1 p1 /\
    sw s1 = [true] /\
    trace s1
      = trace fresh_switch
          ++ [Written [xaa; xbb; x03; x02; x00; xee] 6 None; MarkerSet;
              Written [xaa; xbb; x03; x02; x01; xee] 6 None].
Proof.
  apply (second_command_waits fresh_switch MUTE_BUZZER UNMUTE_BUZZER
           [xaa; xbb; x03; x02; x00; xee] [xaa; xbb; x03; x02; x01; xee]);
    reflexivity.
Defined.

(** X5. Each command without a parameter hands its own template to
    [Write], allocating nothing, and returns nil when all six bytes are
    accepted.  It leaves the marker set, although it reads no response. *)
Theorem command_sends_template (s : state) (command : go (option error))
    (frame : list byte) :
  (command, frame) ∈ commands ->
  take 8 (mem s) = globals ->
  outgoing (conn s) = [] ->
  sw s = [] ->
  steps s command
    (log MarkerSet (set_sw [true] (log (Written frame 6 None) s)))
    (Ret None).
Proof.
  intros Hin Ht Ho Hsw. unfold commands in Hin.
  repeat (apply elem_of_cons in Hin as [[= -> ->]|Hin]);
    [..|by apply elem_of_nil in Hin].
  - apply (send_accepted_alone s MUTE_BUZZER); auto.
    by apply template_loaded.
  - apply (send_accepted_alone s UNMUTE_BUZZER); auto.
    by apply template_loaded.
  - apply (send_accepted_alone s ENABLE_AUTO_INPUT_DETECTION); auto.
    by apply template_loaded.
  - apply (send_accepted_alone s DISABLE_AUTO_INPUT_DETECTION); auto.
    by apply template_loaded.
Qed.

Lemma command_sends_template_witness :
  steps fresh_switch MuteBuzzer
    (log MarkerSet
       (set_sw [true]
          (log (Written [xaa; xbb; x03; x02; x00; xee] 6 None) fresh_switch)))
    (Ret None).
Proof.
  apply (command_sends_template fresh_switch MuteBuzzer
           [xaa; xbb; x03; x02; x00; xee]);
    [apply list_elem_of_here | reflexivity | reflexivity | reflexivity].
Defined.

(** * A request and its reply *)

Lemma read_into_length data : length (read_into data) = 6%nat.
Proof. apply (length_copy (replicate 6 x00) data). Qed.

Lemma answered_after {R} s (p : go R) s0 p0 s' r :
  steps s p s0 p0 -> answered s0 p0 s' r -> answered s p s' r.
Proof.
  intros H (s1 & p1 & s2 & H1 & Hw & Hr & H2).
  exists s1, p1, s2. eauto using steps_trans.
Qed.

Lemma extractInput_decodes s response frame :
  mem s !! response = Some frame ->
  length frame = 6%nat ->
  steps s (extractInput response) s (Ret (decode_frame frame)).
Proof.
  intros Hm Hl.
  destruct (six_bytes frame Hl) as (b0 & b1 & b2 & b3 & b4 & b5 & ->).
  by apply extractInput_steps.
Qed.

(** One turn of the receive loop that finds the marker and room in
    [responses]. *)
Lemma receiveLoop_serves s reply rest m :
  incoming (conn s) = (reply, None) :: rest ->
  sw s = [m] ->
  responses s = [] ->
  steps s receiveLoop
    (log (ToWaiter (read_into reply))
       (set_responses [length (mem s)]
          (log MarkerCleared
             (set_sw []
                (log (WasRead (read_into reply)
                        (Z.of_nat (6 `min` length reply)) None)
                   (set_conn (mkConn (outgoing (conn s)) rest)
                      (set_mem (mem s ++ [read_into reply]) s)))))))
    receiveLoop.
Proof.
  intros Hin Hsw Hresp.
  eapply steps_trans; [exact (receiveLoop_reads s reply None rest Hin)|].
  eapply steps_step.
  { cbn [step sw log set_conn set_mem]. rewrite Hsw. reflexivity. }
  eapply steps_step; [|apply steps_refl].
  cbn [step responses log set_conn set_mem set_sw]. rewrite Hresp.
  unfold contents. cbn [mem log set_conn set_mem set_sw].
  by rewrite lookup_fresh.
Qed.

(** A request that is accepted and answered: the call comes back with
    what the decoder makes of the buffer that the receive loop read. *)
Lemma request_answered s command data reply rest :
  mem s !! command = Some data ->
  length data = 6%nat ->
  outgoing (conn s) = [] ->
  sw s = [] ->
  responses s = [] ->
  incoming (conn s) = (reply, None) :: rest ->
  exists s',
    answered s (send command;; response ← recv_responses; extractInput response)
      s' (decode_frame (read_into reply)) /\
    sw s' = [] /\ responses s' = [] /\
    incoming (conn s') = rest /\
    trace s'
      = trace s ++ [Written data 6 None; MarkerSet;
                    WasRead (read_into reply)
                      (Z.of_nat (6 `min` length reply)) None;
                    MarkerCleared; ToWaiter (read_into reply)].
Proof.
  intros Hm Hl Ho Hsw Hresp Hin.
  set (s1 := log MarkerSet (set_sw [true] (log (Written data 6 None) s))).
  pose proof (receiveLoop_serves s1 reply rest true Hin eq_refl Hresp) as Hloop.
  eexists. split; [|split; [|split; [|split]]].
  - eexists s1, _, _. split; [|split; [|split]].
    + exact (send_accepted s command data _ Hm Hl Ho Hsw).
    + split; [|exact I]. norm. cbn [step s1 responses log set_sw].
      by rewrite Hresp.
    + exact Hloop.
    + eapply steps_step; [reflexivity|]. norm.
      apply extractInput_decodes; [|apply read_into_length].
      cbn [mem set_responses log set_sw set_conn set_mem s1].
      apply lookup_fresh.
  - reflexivity.
  - reflexivity.
  - reflexivity.
  - cbn [trace set_responses log set_sw set_conn set_mem s1].
    by rewrite <- !app_assoc.
Qed.

Lemma decode_status_reply (v : byte) :
  decode_frame (read_into (status_frame v)) = (byte.unsigned v + 1, None).
Proof.
  change (read_into (status_frame v)) with (status_frame v).
  unfold status_frame, decode_frame, decoded.
  by rewrite checks_status_frame.
Qed.

(** X6. [GetCurrentInput], when its six bytes are accepted and the
    receive loop reads the reply while the call waits: the call returns
    what the decoder makes of the six-byte buffer that was read, so the
    input number v + 1 for a status response with parameter byte v and
    "invalid response" for anything else.  Marker and [responses] are
    empty again afterwards. *)
Theorem GetCurrentInput_answered (s : state) (reply : list byte)
    (rest : list (list byte * option error)) :
  take 8 (mem s) = globals ->
  outgoing (conn s) = [] ->
  sw s = [] ->
  responses s = [] ->
  incoming (conn s) = (reply, None) :: rest ->
  exists s',
    answered s GetCurrentInput s' (decode_frame (read_into reply)) /\
    sw s' = [] /\ responses s' = [] /\
    incoming (conn s') = rest /\
    trace s'
      = trace s ++ [Written [xaa; xbb; x03; x10; x00; xee] 6 None; MarkerSet;
                    WasRead (read_into reply)
                      (Z.of_nat (6 `min` length reply)) None;
                    MarkerCleared; ToWaiter (read_into reply)].
Proof.
  intros Ht Ho Hsw Hresp Hin.
  apply (request_answered s GET_CURRENT_INPUT
           [xaa; xbb; x03; x10; x00; xee] reply rest); auto.
  by apply template_loaded.
Qed.

Lemma GetCurrentInput_answered_witness :
  exists s',
    answered replying_switch GetCurrentInput s' (3, None) /\
    sw s' = [] /\ responses s' = [] /\
    incoming (conn s') = [] /\
    trace s'
      = [Written [xaa; xbb; x03; x10; x00; xee] 6 None; MarkerSet;
         WasRead [xaa; xbb; x03; x11; x02; x18] 6 None;
         MarkerCleared; ToWaiter [xaa; xbb; x03; x11; x02; x18]].
Proof.
  exact (GetCurrentInput_answered replying_switch (status_frame x02) []
           eq_refl eq_refl eq_refl eq_refl eq_refl).
Defined.

(** A call with a parameter, once its range check has let it through. *)
Lemma parameter_call_answered s payload tmpl input reply rest :
  mem s !! payload = Some tmpl ->
  outgoing (conn s) = [] ->
  sw s = [] ->
  responses s = [] ->
  incoming (conn s) = (reply, None) :: rest ->
  exists s',
    answered s
      (command ← injectInputToPayload payload input;
       send command;; response ← recv_responses; extractInput response)
      s' (decode_frame (read_into reply)) /\
    sw s' = [] /\ responses s' = [] /\
    incoming (conn s') = rest /\
    trace s'
      = trace s ++ [Written (encode tmpl input) 6 None; MarkerSet;
                    WasRead (read_into reply)
                      (Z.of_nat (6 `min` length reply)) None;
                    MarkerCleared; ToWaiter (read_into reply)].
Proof.
  intros Hp Ho Hsw Hresp Hin.
  set (s0 := set_mem (mem s ++ [encode tmpl input]) s).
  destruct (request_answered s0 (length (mem s)) (encode tmpl input)
              reply rest) as (s' & Ha & H); auto using encode_length.
  { apply lookup_fresh. }
  exists s'. split; [|exact H].
  eapply answered_after; [|exact Ha].
  by apply injectInputToPayload_steps.
Qed.

(** X7. [SwitchInput] and [SetLedTimeout], accepted and answered: the
    number they return is decoded from the reply alone.  It is the input
    that the device reports, whatever input or timeout was asked for. *)
Theorem SwitchInput_answered (s : state) (input : Z) (reply : list byte)
    (rest : list (list byte * option error)) :
  take 8 (mem s) = globals ->
  outgoing (conn s) = [] ->
  sw s = [] ->
  responses s = [] ->
  incoming (conn s) = (reply, None) :: rest ->
  (exists s',
     answered s (SwitchInput input) s' (decode_frame (read_into reply)) /\
     sw s' = [] /\ responses s' = []) /\
  (exists s',
     answered s (SetLedTimeout input) s' (decode_frame (read_into reply)) /\
     sw s' = [] /\ responses s' = []).
Proof.
  intros Ht Ho Hsw Hresp Hin. split.
  - unfold SwitchInput. rewrite range_check_never_fails by lia.
    destruct (parameter_call_answered s SWITCH_INPUT
                [xaa; xbb; x03; x01; x00; xee] (byte.of_Z input) reply rest)
      as (s' & Ha & H1 & H2 & _); auto.
    { by apply template_loaded. }
    by exists s'.
  - unfold SetLedTimeout. rewrite range_check_never_fails by lia.
    destruct (parameter_call_answered s GET_CURRENT_INPUT
                [xaa; xbb; x03; x10; x00; xee] (byte.of_Z input) reply rest)
      as (s' & Ha & H1 & H2 & _); auto.
    { by apply template_loaded. }
    by exists s'.
Qed.

Lemma SwitchInput_answered_witness :
  (exists s',
     answered replying_switch (SwitchInput 7) s' (3, None) /\
     sw s' = [] /\ responses s' = []) /\
  (exists s',
     answered replying_switch (SetLedTimeout 7) s' (3, None) /\
     sw s' = [] /\ responses s' = []).
Proof.
  exact (SwitchInput_answered replying_switch 7 (status_frame x02) []
           eq_refl eq_refl eq_refl eq_refl eq_refl).
Defined.

(** * Errors that are dropped or passed on *)

(** X8. [SwitchInput] and [GetCurrentInput] do not look at what [send]
    returns.  When [Write] fails, the error is dropped, no marker is set,
    and the call goes on to wait for a response on [responses]. *)
Theorem write_error_is_dropped (s : state) (input n : Z) (failure : error)
    (rest : list (Z * option error)) :
  take 8 (mem s) = globals ->
  outgoing (conn s) = (n, Some failure) :: rest ->
  responses s = [] ->
  (exists s1 p1,
     steps s (SwitchInput input) s1 p1 /\ waiting s1 p1 /\
     sw s1 = sw s /\
     trace s1
       = trace s ++ [Written [xaa; xbb; x03; x01; byte.of_Z input; xee]
                       n (Some failure)]) /\
  (exists s1 p1,
     steps s GetCurrentInput s1 p1 /\ waiting s1 p1 /\
     sw s1 = sw s /\
     trace s1
       = trace s ++ [Written [xaa; xbb; x03; x10; x00; xee] n (Some failure)]).
Proof.
  intros Ht Ho Hresp. split.
  - unfold SwitchInput. rewrite range_check_never_fails by lia.
    eexists _, _. split; [|split; [|split]].
    + eapply steps_trans.
      { apply (injectInputToPayload_steps s SWITCH_INPUT (byte.of_Z input)
                 [xaa; xbb; x03; x01; x00; xee]).
        by apply template_loaded. }
      apply (send_written _ _ (encode [xaa; xbb; x03; x01; x00; xee]
                                 (byte.of_Z input)) n (Some failure)
               (mkConn rest (incoming (conn s)))).
      * apply lookup_fresh.
      * by apply next_write_scripted.
    + split; [|exact I]. norm. cbn [step responses log set_conn set_mem].
      by rewrite Hresp.
    + reflexivity.
    + reflexivity.
  - eexists _, _. split; [|split; [|split]].
    + apply (send_written s GET_CURRENT_INPUT [xaa; xbb; x03; x10; x00; xee]
               n (Some failure) (mkConn rest (incoming (conn s)))).
      * by apply template_loaded.
      * by apply next_write_scripted.
    + split; [|exact I]. norm. cbn [step responses log set_conn set_mem].
      by rewrite Hresp.
    + reflexivity.
    + reflexivity.
Qed.

Lemma write_error_is_dropped_witness :
  (exists s1 p1,
     steps broken_pipe (SwitchInput 3) s1 p1 /\ waiting s1 p1 /\
     sw s1 = [] /\
     trace s1 = [Written [xaa; xbb; x03; x01; x03; xee]
                   0 (Some (net_error "broken pipe"))]) /\
  (exists s1 p1,
     steps broken_pipe GetCurrentInput s1 p1 /\ waiting s1 p1 /\
     sw s1 = [] /\
     trace s1 = [Written [xaa; xbb; x03; x10; x00; xee]
                   0 (Some (net_error "broken pipe"))]).
Proof.
  exact (write_error_is_dropped broken_pipe 3 0 (net_error "broken pipe") []
           eq_refl eq_refl eq_refl).
Defined.

(** One turn of the receive loop that finds no marker, and room in
    [Responses]. *)
Lemma receiveLoop_observes s data rest :
  incoming (conn s) = (data, None) :: rest ->
  sw s = [] ->
  Responses s = [] ->
  steps s receiveLoop
    (log (ToObserver (read_into data))
       (set_Responses [length (mem s)]
          (log (WasRead (read_into data)
                  (Z.of_nat (6 `min` length data)) None)
             (set_conn (mkConn (outgoing (conn s)) rest)
                (set_mem (mem s ++ [read_into data]) s)))))
    receiveLoop.
Proof.
  intros Hin Hsw Hpub.
  eapply steps_trans; [exact (receiveLoop_reads s data None rest Hin)|].
  eapply steps_step.
  { cbn [step sw log set_conn set_mem]. rewrite Hsw. reflexivity. }
  eapply steps_step; [|apply steps_refl].
  cbn [step Responses log set_conn set_mem set_sw]. rewrite Hpub.
  unfold contents. cbn [mem log set_conn set_mem set_sw].
  by rewrite lookup_fresh.
Qed.

(** X9. When [Read] returns an error, the receive loop puts the error on
    [err] and leaves its [for]: the goroutine ends.  Bytes that came with
    the error are handed to nobody, and a pending marker stays where it
    is. *)
Theorem receiveLoop_ends_on_error (s : state) (data : list byte)
    (failure : error) (rest : list (list byte * option error)) :
  incoming (conn s) = (data, Some failure) :: rest ->
  err s = [] ->
  exists s',
    steps s receiveLoop s' (Ret tt) /\
    err s' = [failure] /\
    sw s' = sw s /\ responses s' = responses s /\
    Responses s' = Responses s /\
    trace s'
      = trace s ++ [WasRead (read_into data)
                      (Z.of_nat (6 `min` length data)) (Some failure);
                    Failure failure].
Proof.
  intros Hin Herr. eexists. split; [|split; [|split; [|split; [|split]]]].
  - eapply steps_trans;
      [exact (receiveLoop_reads s data (Some failure) rest Hin)|].
    eapply steps_step; [|apply steps_refl].
    cbn [step err log set_conn set_mem]. rewrite Herr. reflexivity.
  - reflexivity.
  - reflexivity.
  - reflexivity.
  - reflexivity.
  - cbn [trace log set_err set_conn set_mem]. by rewrite <- app_assoc.
Qed.

Lemma receiveLoop_ends_on_error_witness :
  exists s',
    steps read_fails receiveLoop s' (Ret tt) /\
    err s' = [net_error "connection reset"] /\
    sw s' = [true] /\ responses s' = [] /\
    Responses s' = [] /\
    trace s'
      = [WasRead [x00; x00; x00; x00; x00; x00] 0
           (Some (net_error "connection reset"));
         Failure (net_error "connection reset")].
Proof.
  exact (receiveLoop_ends_on_error read_fails []
           (net_error "connection reset") [] eq_refl eq_refl).
Defined.

(** * Reads and frames *)

Lemma read_into_short data :
  (length data <= 6)%nat ->
  read_into data = data ++ replicate (6 - length data) x00.
Proof.
  intros Hl. unfold read_into. rewrite length_replicate.
  replace (Nat.min 6 (length data)) with (length data) by lia.
  rewrite firstn_all.
  do 7 (destruct data as [|? data]; [reflexivity|]). cbn in Hl. lia.
Qed.

Lemma read_into_long data :
  (6 <= length data)%nat -> read_into data = take 6 data.
Proof.
  intros Hl. unfold read_into. rewrite length_replicate.
  replace (Nat.min 6 (length data)) with 6%nat by lia.
  by rewrite app_nil_r.
Qed.

(** X10. The receive loop takes every [Read] for one frame, whatever the
    number of bytes read: fewer than six are followed by zeros in the
    six-byte buffer, and nothing is put together across reads.  Of a
    reply that arrives in two reads the first part goes to the waiting
    caller and the second, finding no marker, to the observer. *)
Theorem reads_are_frames (s : state) (part1 part2 : list byte)
    (rest : list (list byte * option error)) (m : bool) :
  incoming (conn s) = (part1, None) :: (part2, None) :: rest ->
  (length part1 <= 6)%nat ->
  (length part2 <= 6)%nat ->
  sw s = [m] ->
  responses s = [] ->
  Responses s = [] ->
  exists s',
    steps s receiveLoop s' receiveLoop /\
    mem s' = mem s ++ [part1 ++ replicate (6 - length part1) x00;
                       part2 ++ replicate (6 - length part2) x00] /\
    responses s' = [length (mem s)] /\
    Responses s' = [S (length (mem s))] /\
    sw s' = [] /\
    incoming (conn s') = rest.
Proof.
  intros Hin Hl1 Hl2 Hsw Hresp Hpub.
  pose proof (receiveLoop_serves s part1 ((part2, None) :: rest) m
                Hin Hsw Hresp) as H1.
  match type of H1 with steps _ _ ?x _ => set (s1 := x) in * end.
  pose proof (receiveLoop_observes s1 part2 rest eq_refl eq_refl Hpub) as H2.
  eexists. split; [exact (steps_trans _ _ _ _ _ _ H1 H2)|].
  split; [|split; [|split; [|split]]]; try reflexivity.
  - cbn [mem s1 log set_Responses set_responses set_sw set_conn set_mem].
    rewrite <- app_assoc. by rewrite !read_into_short by done.
  - cbn [Responses mem s1 log set_Responses set_responses set_sw set_conn
           set_mem].
    rewrite length_app. cbn [length]. f_equal. lia.
Qed.

Lemma reads_are_frames_witness :
  exists s',
    steps split_reply receiveLoop s' receiveLoop /\
    mem s' = globals ++ [[xaa; xbb; x03; x00; x00; x00];
                         [x11; x02; x18; x00; x00; x00]] /\
    responses s' = [8%nat] /\
    Responses s' = [9%nat] /\
    sw s' = [] /\
    incoming (conn s') = [].
Proof.
  apply (reads_are_frames split_reply [xaa; xbb; x03] [x11; x02; x18] [] true);
    [reflexivity | cbn; lia | cbn; lia | reflexivity | reflexivity
    | reflexivity].
Defined.

(** * No index out of range *)

Lemma in_bounds_mono {R} (sized sized' : slice -> nat -> Prop) (p : go R) :
  (forall b n, sized b n -> sized' b n) ->
  in_bounds sized p -> in_bounds sized' p.
Proof.
  revert sized sized'. induction p; cbn; intros sized sized' Hsub Hp;
    try solve [intuition eauto].
  - intros l. eapply H; [|apply Hp]. cbn. intuition.
  - destruct Hp as [(n & Hn & Hi) Hp]. split; [by eauto|]. eauto.
  - destruct Hp as [(n & Hn & Hi) Hp]. split; [by eauto|]. eauto.
  - intros l. eapply H; [|apply Hp]. cbn. intuition.
Qed.

Lemma in_bounds_bind {A B} sized (p : go A) (f : A -> go B) :
  in_bounds sized p ->
  (forall sized' r, (forall b n, sized b n -> sized' b n) ->
                    in_bounds sized' (f r)) ->
  in_bounds sized (bind p f).
Proof.
  revert sized. induction p; cbn; intros sized Hp Hf;
    try solve [intuition eauto].
Qed.

(** No operation changes the length of an array. *)
Lemma step_has_length {R} s (p : go R) s' p' b n :
  step s p = Some (s', p') -> has_length s b n -> has_length s' b n.
Proof.
  intros Hstep (d & Hd & Hl). unfold has_length.
  assert (forall i old new,
            mem s !! i = Some old -> length new = length old ->
            exists d0, <[i := new]> (mem s) !! b = Some d0 /\ length d0 = n)
    as Hins.
  { intros i old new Hi Hn. destruct (decide (i = b)) as [->|Hne].
    - exists new. split; [|congruence].
      apply list_lookup_insert_eq. by eapply lookup_lt_Some.
    - exists d. by rewrite list_lookup_insert_ne. }
  destruct p; cbn in Hstep;
    repeat match type of Hstep with
           | match ?x with _ => _ end = _ => destruct x eqn:?
           | (let '(_, _) := ?x in _) = _ => destruct x eqn:?
           end;
    simplify_eq; cbn [mem set_mem set_conn set_sw set_err set_responses
                      set_Responses log]; eauto.
  - exists d. split; [by apply lookup_old | done].
  - eapply Hins; eauto. apply length_copy.
  - eapply Hins; eauto. apply length_insert.
  - eapply Hins; eauto. apply length_copy.
Qed.

Lemma step_in_bounds {R} sized s (p : go R) s' p' :
  (forall b n, sized b n -> has_length s b n) ->
  (forall b, b ∈ responses s -> has_length s b 6) ->
  in_bounds sized p ->
  step s p = Some (s', p') ->
  (forall b, b ∈ responses s' -> has_length s' b 6) /\
  exists sized', (forall b n, sized' b n -> has_length s' b n) /\
                 in_bounds sized' p'.
Proof.
  intros Hsized Hresp Hp Hstep.
  assert (forall b n, has_length s b n -> has_length s' b n) as Hkeep
    by (intros b n; by eapply step_has_length).
  destruct p; cbn in Hp; cbn in Hstep;
    repeat match type of Hstep with
           | match ?x with _ => _ end = _ => destruct x eqn:?
           | (let '(_, _) := ?x in _) = _ => destruct x eqn:?
           end;
    simplify_eq.
  all: try (split; [by eauto | exists sized; split; [by eauto |];
                    first [done | tauto | by apply Hp]]).
  - split; [by eauto|].
    exists (fun b m => (b = length (mem s) /\ m = n) \/ sized b m).
    split; [|apply Hp].
    intros b m [[-> ->]|Hb]; [|by eauto].
    eexists. split; [apply lookup_fresh | apply length_replicate].
  - exfalso. destruct Hp as [(n & Hn & Hi) _].
    apply Hsized in Hn as (d & Hd & Hl). simplify_eq.
    match goal with H : match length ?d with _ => _ end = false |- _ =>
      destruct (length d); [lia | apply Nat.leb_gt in H; lia] end.
  - exfalso. destruct Hp as [(n & Hn & Hi) _].
    apply Hsized in Hn as (d & Hd & Hl). simplify_eq.
    match goal with H : _ !! _ = None |- _ =>
      apply lookup_ge_None_1 in H; lia end.
  - unfold chan_send in *. destruct (_ <? _)%nat; simplify_eq.
    destruct Hp as [Hs0 Hp']. split.
    + intros b [Hb| ->%list_elem_of_singleton]%elem_of_app; by eauto.
    + exists sized. by eauto.
  - split.
    + intros b Hb. apply Hkeep, Hresp. by right.
    + exists (fun b m => (b = n /\ m = 6%nat) \/ sized b m).
      split; [|apply Hp].
      intros b m [[-> ->]|Hb]; [|by eauto].
      apply Hkeep, Hresp. by left.
  - split; [by eauto|]. exists sized. split; [by eauto|].
    destruct Hp as [Hbody Hk]. apply in_bounds_bind; [done|].
    intros sized' [] Hsub; eapply in_bounds_mono; eauto. by split.
Qed.

Lemma sys_step_bounds g c : bounds_invariant c -> bounds_invariant (sys_step g c).
Proof.
  intros (Hresp & (kc & Hkc & Hc) & (kr & Hkr & Hr)). destruct g; cbn.
  - destruct (step (shared c) (caller c)) as [[s' p']|] eqn:Hstep;
      [|by repeat split; eauto].
    destruct (step_in_bounds _ _ _ _ _ Hkc Hresp Hc Hstep)
      as (Hresp' & kc' & Hkc' & Hc').
    repeat split; cbn; eauto.
    exists kr. split; [|done]. intros b n Hb. eapply step_has_length; eauto.
  - destruct (step (shared c) (receiver c)) as [[s' p']|] eqn:Hstep;
      [|by repeat split; eauto].
    destruct (step_in_bounds _ _ _ _ _ Hkr Hresp Hr Hstep)
      as (Hresp' & kr' & Hkr' & Hr').
    repeat split; cbn; eauto.
    exists kc. split; [|done]. intros b n Hb. eapply step_has_length; eauto.
Qed.

Lemma exec_bounds schedule c :
  bounds_invariant c -> bounds_invariant (exec schedule c).
Proof.
  revert c. induction schedule as [|g schedule IH]; intros c Hc; [done|].
  cbn. apply IH. by apply sys_step_bounds.
Qed.

Lemma injectInputToPayload_in_bounds sized payload input :
  in_bounds sized (injectInputToPayload payload input).
Proof.
  cbn. intros l. split; [|done]. exists 6%nat. split; [by left | lia].
Qed.

Lemma send_in_bounds sized command : in_bounds sized (send command).
Proof. cbn. intros n [e|]; cbn; [done|]. by destruct (negb (n =? 6)). Qed.

Lemma index_is_in_bounds (sized : slice -> nat -> Prop) s i v :
  sized s 6%nat -> (i < 6)%nat -> in_bounds sized (index_is s i v).
Proof. intros Hs Hi. cbn. split; [by exists 6%nat | done]. Qed.

Lemma and_then_in_bounds sized (x y : go bool) :
  in_bounds sized x -> in_bounds sized y -> in_bounds sized (x &&& y).
Proof.
  intros Hx Hy. apply in_bounds_bind; [done|].
  intros sized' [] Hsub; [|done]. by eapply in_bounds_mono.
Qed.

Lemma extractInput_in_bounds (sized : slice -> nat -> Prop) response :
  sized response 6%nat -> in_bounds sized (extractInput response).
Proof.
  intros Hs. apply in_bounds_bind.
  - repeat apply and_then_in_bounds;
      try (apply index_is_in_bounds; [done | lia]).
    cbn. split; [exists 6%nat; split; [done | lia]|].
    intros b5. split; [exists 6%nat; split; [done | lia] | done].
  - intros sized' [] Hsub; [|done]. cbn.
    split; [exists 6%nat; split; [by apply Hsub | lia] | done].
Qed.

Lemma await_in_bounds sized :
  in_bounds sized (response ← recv_responses; extractInput response).
Proof.
  change (forall l, in_bounds (fun b m => (b = l /\ m = 6%nat) \/ sized b m)
                      (extractInput l)).
  intros l. apply extractInput_in_bounds. by left.
Qed.

Lemma call_in_bounds sized op : in_bounds sized (call op).
Proof.
  assert (forall sized (check : bool) refuse payload input,
            in_bounds sized
              (if check then Ret refuse
               else command ← injectInputToPayload payload input;
                    send command;;
                    response ← recv_responses; extractInput response))
    as Hchecked.
  { intros sized0 [] ? ? ?; [done|].
    apply in_bounds_bind; [apply injectInputToPayload_in_bounds|].
    intros sized1 command _.
    apply in_bounds_bind; [apply send_in_bounds|].
    intros sized2 _ _. apply await_in_bounds. }
  destruct op; (apply in_bounds_bind; [|done]);
    try apply Hchecked; try apply send_in_bounds.
  apply in_bounds_bind; [apply send_in_bounds|].
  intros sized' _ _. apply await_in_bounds.
Qed.

Lemma client_in_bounds sized ops : in_bounds sized (client ops).
Proof.
  revert sized. induction ops as [|op ops IH]; intros sized; [done|].
  cbn. apply in_bounds_bind; [apply call_in_bounds|]. intros; apply IH.
Qed.

Lemma receiveLoop_in_bounds : in_bounds (fun _ _ => False) receiveLoop.
Proof.
  cbn. split; [|done]. intros l n [e|]; cbn; [done|].
  split; [|done]. split; [by left | done].
Qed.

(** X11. No goroutine ever indexes out of range.  Whatever calls the
    client makes, whatever the connection answers and however the two
    goroutines are scheduled, neither the caller nor the receive loop
    panics: every buffer that reaches [extractInput] has six bytes. *)
Theorem no_index_out_of_range (ops : list operation)
    (schedule : list goroutine) (conn0 : connection) (msg : string) :
  let c := exec schedule
             (mkSystem (connected conn0) (client ops) receiveLoop) in
  caller c <> Panic msg /\ receiver c <> Panic msg.
Proof.
  intros c.
  destruct (exec_bounds schedule
              (mkSystem (connected conn0) (client ops) receiveLoop))
    as (_ & (kc & _ & Hc) & (kr & _ & Hr)).
  - split; [|split].
    + intros b Hb. by apply elem_of_nil in Hb.
    + exists (fun _ _ => False). split; [done | apply client_in_bounds].
    + exists (fun _ _ => False). split; [done | apply receiveLoop_in_bounds].
  - fold c in Hc, Hr. split; intros E; [rewrite E in Hc | rewrite E in Hr];
      done.
Qed.

(** * Writes, markers and answers, counted *)

Lemma count_log f t e :
  count f (t ++ [e]) = (count f t + if f e then 1 else 0)%nat.
Proof.
  unfold count. rewrite List.filter_app, length_app. cbn.
  by destruct (f e).
Qed.

Lemma accounted_mono {R} a c a' c' (p : go R) :
  (a <= a')%nat -> (c <= c')%nat -> accounted a c p -> accounted a' c' p.
Proof.
  revert a c a' c'. induction p; cbn; intros a c a' c' Ha Hc Hp;
    try solve [intuition eauto].
  - intros n0 e. eapply H; [| |apply Hp]; [destruct e; lia | lia].
  - destruct a as [|a]; [done|]. destruct a' as [|a']; [lia|].
    eapply IHp; [| |exact Hp]; lia.
  - destruct Hp as [Hr Ho]. split.
    + eapply IHp1; [| |exact Hr]; lia.
    + eapply IHp2; [| |exact Ho]; lia.
  - destruct c as [|c]; [done|]. destruct c' as [|c']; [lia|].
    eapply IHp; [| |exact Hp]; lia.
Qed.

Lemma accounted_bind {A B} a c (p : go A) (f : A -> go B) :
  accounted a c p -> (forall r, accounted 0 0 (f r)) ->
  accounted a c (bind p f).
Proof.
  revert a c. induction p; cbn; intros a c Hp Hf; try solve [intuition eauto].
  - eapply accounted_mono; [| |apply Hf]; lia.
  - destruct a as [|a]; [done|]. by apply IHp.
  - destruct c as [|c]; [done|]. by apply IHp.
Qed.

(** One operation of a goroutine that accounts for its markers keeps the
    books balanced; [a'] and [c'] are what the other goroutine holds. *)
Lemma step_accounted {R} a c a' c' s (p : go R) s' p' :
  accounted a c p ->
  count is_accepted_write (trace s)
    = (count is_marker_set (trace s) + a + a')%nat ->
  count is_marker_set (trace s)
    = (count is_marker_cleared (trace s) + length (sw s))%nat ->
  count is_marker_cleared (trace s)
    = (count is_to_waiter (trace s) + c + c')%nat ->
  step s p = Some (s', p') ->
  exists a1 c1,
    accounted a1 c1 p' /\
    count is_accepted_write (trace s')
      = (count is_marker_set (trace s') + a1 + a')%nat /\
    count is_marker_set (trace s')
      = (count is_marker_cleared (trace s') + length (sw s'))%nat /\
    count is_marker_cleared (trace s')
      = (count is_to_waiter (trace s') + c1 + c')%nat.
Proof.
  intros Hp H1 H2 H3 Hstep.
  destruct p; cbn in Hp; cbn in Hstep;
    repeat match type of Hstep with
           | match ?x with _ => _ end = _ => destruct x eqn:?
           | (let '(_, _) := ?x in _) = _ => destruct x eqn:?
           end;
    simplify_eq;
    cbn [trace sw set_mem set_conn set_sw set_err set_responses
         set_Responses log];
    rewrite ?count_log; cbn [is_accepted_write is_marker_set
                             is_marker_cleared is_to_waiter].
  all: try (exists a, c; split; [first [done | tauto | by apply Hp] | lia]).
  - destruct o as [failure|].
    + exists a, c. split; [apply (Hp z (Some failure)) | lia].
    + exists (S a), c. split; [apply (Hp z None) | lia].
  - destruct a as [|a]; [done|]. exists a, c. split; [done|].
    unfold chan_send in *. destruct (_ <? _)%nat; simplify_eq.
    rewrite length_app. cbn [length]. lia.
  - exists a, c. split; [tauto|].
    match goal with H : sw _ = [] |- _ => rewrite H end. done.
  - exists a, (S c). split; [tauto|]. cbn [length] in H2. lia.
  - destruct c as [|c]; [done|]. exists a, c. split; [done | lia].
  - exists a, c. split; [|done]. destruct Hp as [Hbody Hk].
    eapply accounted_mono; [apply Nat.le_0_l | apply Nat.le_0_l |].
    apply accounted_bind; [done|]. by intros [].
Qed.

Lemma sys_step_ledger g c : ledger c -> ledger (sys_step g c).
Proof.
  intros (a & t & a' & t' & Hc & Hr & H1 & H2 & H3). destruct g; cbn.
  - destruct (step (shared c) (caller c)) as [[s' p']|] eqn:Hstep;
      [|by exists a, t, a', t'].
    destruct (step_accounted a t a' t' _ _ _ _ Hc H1 H2 H3 Hstep)
      as (a1 & t1 & Hc' & H1' & H2' & H3').
    by exists a1, t1, a', t'.
  - destruct (step (shared c) (receiver c)) as [[s' p']|] eqn:Hstep;
      [|by exists a, t, a', t'].
    assert (count is_accepted_write (trace (shared c))
            = (count is_marker_set (trace (shared c)) + a' + a)%nat) as H1r
      by lia.
    assert (count is_marker_cleared (trace (shared c))
            = (count is_to_waiter (trace (shared c)) + t' + t)%nat) as H3r
      by lia.
    destruct (step_accounted a' t' a t _ _ _ _ Hr H1r H2 H3r Hstep)
      as (a1 & t1 & Hr' & H1' & H2' & H3').
    exists a, t, a1, t1. cbn [shared caller receiver].
    repeat split; [done | done | lia | lia | lia].
Qed.

Lemma exec_ledger schedule c : ledger c -> ledger (exec schedule c).
Proof.
  revert c. induction schedule as [|g schedule IH]; intros c Hc; [done|].
  cbn. apply IH. by apply sys_step_ledger.
Qed.

Lemma send_accounted command : accounted 0 0 (send command).
Proof. cbn. intros n [e|]; cbn; [done|]. by destruct (negb (n =? 6)). Qed.

Lemma extractInput_accounted response : accounted 0 0 (extractInput response).
Proof.
  apply accounted_bind.
  - unfold isValidOutput, and_then.
    repeat (apply accounted_bind; [|intros []; try done]); by cbn.
  - intros []; by cbn.
Qed.

Lemma call_accounted op : accounted 0 0 (call op).
Proof.
  assert (accounted 0 0
            (response ← recv_responses; extractInput response)) as Hawait.
  { change (forall l, accounted 0 0 (extractInput l)).
    apply extractInput_accounted. }
  assert (forall (check : bool) refuse payload input,
            accounted 0 0
              (if check then Ret refuse
               else command ← injectInputToPayload payload input;
                    send command;;
                    response ← recv_responses; extractInput response))
    as Hchecked.
  { intros [] ? ? ?; [done|].
    apply accounted_bind; [by cbn|]. intros command.
    apply accounted_bind; [apply send_accounted|].
    intros _. apply Hawait. }
  destruct op; (apply accounted_bind; [|done]);
    try apply Hchecked; try apply send_accounted.
  apply accounted_bind; [apply send_accounted|].
  intros _. apply Hawait.
Qed.

Lemma client_accounted ops : accounted 0 0 (client ops).
Proof.
  induction ops as [|op ops IH]; [done|].
  cbn. apply accounted_bind; [apply call_accounted | done].
Qed.

Lemma receiveLoop_accounted : accounted 0 0 receiveLoop.
Proof. cbn. split; [|done]. intros l n [e|]; by cbn. Qed.

(** X12. The books of the correlator balance under every schedule and
    every behaviour of the connection.  At every moment the frames put on
    [responses] are no more than the markers the receive loop has taken,
    these no more than the markers set, and these no more than the writes
    that were accepted; [sw] holds exactly the markers set and not yet
    taken.  So a frame reaches a waiting caller only against a marker,
    and a marker exists only against a write of the client. *)
Theorem books_balance (ops : list operation) (schedule : list goroutine)
    (conn0 : connection) :
  let s := shared (exec schedule
                     (mkSystem (connected conn0) (client ops) receiveLoop)) in
  (count is_to_waiter (trace s) <= count is_marker_cleared (trace s))%nat /\
  (count is_marker_cleared (trace s) <= count is_marker_set (trace s))%nat /\
  (count is_marker_set (trace s) <= count is_accepted_write (trace s))%nat /\
  length (sw s)
    = (count is_marker_set (trace s) - count is_marker_cleared (trace s))%nat.
Proof.
  intros s.
  destruct (exec_ledger schedule
              (mkSystem (connected conn0) (client ops) receiveLoop))
    as (a & t & a' & t' & _ & _ & H1 & H2 & H3).
  - exists 0%nat, 0%nat, 0%nat, 0%nat.
    split; [apply client_accounted|]. split; [apply receiveLoop_accounted|].
    done.
  - fold s in H1, H2, H3. lia.
Qed.

(** * The operations of the variant without a marker *)

Lemma Part000_send_steps s command data n e c :
  mem s !! command = Some data ->
  next_write (conn s) (length data) = (n, e, c) ->
  steps s (Part000.send command) (log (Written data n e) (set_conn c s))
    (Ret (sent n e)).
Proof.
  intros Hm Hw. unfold Part000.send, sent. norm.
  eapply steps_step; [|apply steps_here; reflexivity].
  cbn [step]. rewrite Hm, Hw. destruct e; [done|].
  by destruct (negb (n =? 6)).
Qed.

Lemma Part000_inject_send_steps s payload tmpl input n e c :
  mem s !! payload = Some tmpl ->
  next_write (conn s) 6 = (n, e, c) ->
  steps s (command ← injectInputToPayload payload input; Part000.send command)
    (log (Written (encode tmpl input) n e)
       (set_conn c (set_mem (mem s ++ [encode tmpl input]) s)))
    (Ret (sent n e)).
Proof.
  intros Hp Hw. eapply steps_trans.
  { exact (injectInputToPayload_steps s payload input tmpl Part000.send Hp). }
  apply Part000_send_steps; [apply lookup_fresh|].
  by rewrite encode_length.
Qed.

(** X13. Every operation of the variant without a marker returns at
    once, whatever the connection answers: it hands one frame to [Write],
    returns the error of [Write] if there is one, a size error if the count
    is not 6 and nil otherwise, and touches no channel.  It never waits
    for a response. *)
Theorem Part000_call_returns (s : state) (input : Z)
    (call : go (option error)) (frame : list byte) (made : list (list byte))
    (n : Z) (e : option error) (c : connection) :
  (call, frame, made) ∈ calls input ->
  take 8 (mem s) = globals ->
  next_write (conn s) 6 = (n, e, c) ->
  steps s call
    (log (Written frame n e) (set_conn c (set_mem (mem s ++ made) s)))
    (Ret (sent n e)).
Proof.
  intros Hin Ht Hw. unfold calls in Hin. cbv zeta in Hin.
  repeat (apply elem_of_cons in Hin as [[= -> -> ->]|Hin]);
    [..|by apply elem_of_nil in Hin].
  - unfold Part000.SwitchInput. rewrite range_check_never_fails by lia.
    apply (Part000_inject_send_steps s SWITCH_INPUT
             [xaa; xbb; x03; x01; x00; xee]); [|done].
    by apply template_loaded.
  - unfold Part000.SetLedTimeout. rewrite range_check_never_fails by lia.
    apply (Part000_inject_send_steps s GET_CURRENT_INPUT
             [xaa; xbb; x03; x10; x00; xee]); [|done].
    by apply template_loaded.
  - rewrite app_nil_r.
    replace (set_mem (mem s) s) with s by (by destruct s).
    apply Part000_send_steps; [by apply template_loaded | done].
  - rewrite app_nil_r.
    replace (set_mem (mem s) s) with s by (by destruct s).
    apply Part000_send_steps; [by apply template_loaded | done].
  - rewrite app_nil_r.
    replace (set_mem (mem s) s) with s by (by destruct s).
    apply Part000_send_steps; [by apply template_loaded | done].
  - rewrite app_nil_r.
    replace (set_mem (mem s) s) with s by (by destruct s).
    apply Part000_send_steps; [by apply template_loaded | done].
  - rewrite app_nil_r.
    replace (set_mem (mem s) s) with s by (by destruct s).
    apply Part000_send_steps; [by apply template_loaded | done].
Qed.

Lemma Part000_call_returns_witness :
  steps short_write (Part000.SwitchInput 3)
    (log (Written [xaa; xbb; x03; x01; x03; xee] 5 None)
       (set_conn (mkConn [] [])
          (set_mem (globals ++ [[xaa; xbb; x03; x01; x03; xee]])
             short_write)))
    (Ret (Some (wrong_amount 5))).
Proof.
  apply (Part000_call_returns short_write 3 (Part000.SwitchInput 3)
           [xaa; xbb; x03; x01; x03; xee] [[xaa; xbb; x03; x01; x03; xee]]
           5 None (mkConn [] []));
    [apply list_elem_of_here | reflexivity | reflexivity].
Defined.

(** * printHex *)

Lemma string_app_cons (x : ascii) (a b : string) :
  String x a +:+ b = String x (a +:+ b).
Proof. reflexivity. Qed.

Lemma string_app_assoc (a b c : string) : (a +:+ b) +:+ c = a +:+ (b +:+ c).
Proof.
  induction a as [|x a IH]; [done|]. by rewrite !string_app_cons, IH.
Qed.

Lemma string_app_nil_r (a : string) : a +:+ "" = a.
Proof. induction a as [|x a IH]; [done|]. by rewrite string_app_cons, IH. Qed.

Lemma string_length_app (a b : string) :
  String.length (a +:+ b) = (String.length a + String.length b)%nat.
Proof.
  induction a as [|x a IH]; [done|]. rewrite string_app_cons. cbn.
  by rewrite IH.
Qed.

Lemma Sprintf_cell (b : byte) :
  Part000Commands.ToUpper (Part000Commands.Sprintf_3_2x b) = cell b.
Proof. destruct b; reflexivity. Qed.

Lemma printHex_from (init : string) (data : list byte) :
  fold_left
    (fun out b => out +:+ Part000Commands.ToUpper (Part000Commands.Sprintf_3_2x b))
    data init
  = init +:+ cells data.
Proof.
  revert init. induction data as [|b data IH]; intros init; cbn [fold_left cells].
  - by rewrite string_app_nil_r.
  - by rewrite IH, Sprintf_cell, string_app_assoc.
Qed.

Lemma cells_length (data : list byte) :
  String.length (cells data) = (3 * length data)%nat.
Proof.
  induction data as [|b data IH]; [done|].
  cbn [cells length]. rewrite string_length_app, IH. cbn. lia.
Qed.

(** X14. [printHex] writes the escape sequence ESC [ 1 D and then, for
    every byte in order, a space and the two upper-case hexadecimal
    digits of the byte, high digit first.  Its result has 4 + 3n
    characters for n bytes. *)
Theorem printHex_cells (data : list byte) :
  Part000Commands.printHex data = String "027" "[1D" +:+ cells data /\
  String.length (Part000Commands.printHex data) = (4 + 3 * length data)%nat.
Proof.
  assert (Part000Commands.printHex data = String "027" "[1D" +:+ cells data)
    as H by apply printHex_from.
  split; [exact H|].
  rewrite H, string_length_app, cells_length. reflexivity.
Qed.

Lemma cell_digits (b : byte) :
  byte.of_Z (16 * digit_value (HEX (Byte.to_N b / 16))
             + digit_value (HEX (Byte.to_N b mod 16))) = b.
Proof. destruct b; reflexivity. Qed.

Lemma cells_inj (d1 d2 : list byte) : cells d1 = cells d2 -> d1 = d2.
Proof.
  revert d2. induction d1 as [|b1 d1 IH]; intros [|b2 d2] H;
    cbn in H; try done.
  injection H as Hh Hl Hrest.
  rewrite <- (cell_digits b1), <- (cell_digits b2), Hh, Hl.
  f_equal. by apply IH.
Qed.

(** X15. [printHex] loses nothing: two byte strings that print alike are
    the same. *)
Theorem printHex_injective (d1 d2 : list byte) :
  Part000Commands.printHex d1 = Part000Commands.printHex d2 -> d1 = d2.
Proof.
  unfold Part000Commands.printHex. rewrite !printHex_from.
  intros H. apply cells_inj. by simplify_eq.
Qed.

Lemma printHex_injective_witness : [xaa; x0b] = [xaa; x0b].
Proof. apply (printHex_injective [xaa; x0b] [xaa; x0b]). reflexivity. Defined.

(** * The frames on the wire *)

Lemma written_log t e :
  written (t ++ [e])
    = written t ++ match e with Written d _ _ => [d] | _ => [] end.
Proof.
  induction t as [|e' t IH]; cbn.
  - by destruct e.
  - destruct e'; cbn; by rewrite IH.
Qed.

Lemma sends_mono {R} known frames (p : go R)
    (Q Q' : (slice -> option (list byte)) -> list (list byte) -> R -> Prop) :
  (forall k f r, Q k f r -> Q' k f r) ->
  sends known frames p Q -> sends known frames p Q'.
Proof.
  intros HQ. revert known frames.
  induction p; cbn; intros known frames Hp; try solve [intuition eauto].
  - destruct (known dst), (known src); eauto.
  - destruct (known s); eauto.
  - destruct frames; [done|]. destruct Hp as [Hb Hk]. eauto.
Qed.

Lemma sends_bind {A B} known frames (p : go A) (f : A -> go B)
    (Q : (slice -> option (list byte)) -> list (list byte) -> B -> Prop) :
  sends known frames p (fun k' f' r => sends k' f' (f r) Q) ->
  sends known frames (bind p f) Q.
Proof.
  revert known frames.
  induction p; cbn; intros known frames Hp; try solve [intuition eauto].
  - destruct (known dst), (known src); eauto.
  - destruct (known s); eauto.
  - destruct frames; [done|]. destruct Hp as [Hb Hk]. eauto.
Qed.

Lemma keeps_to_itself_mono {R} (own own' : slice -> Prop) (p : go R) :
  (forall b, own b -> own' b) ->
  keeps_to_itself own p -> keeps_to_itself own' p.
Proof.
  revert own own'. induction p; cbn; intros own own' Hsub Hp;
    try solve [intuition eauto].
  intros l. eapply H; [|apply Hp]. cbn. intuition.
Qed.

Lemma keeps_to_itself_bind {A B} own (p : go A) (f : A -> go B) :
  keeps_to_itself own p -> (forall r, keeps_to_itself own (f r)) ->
  keeps_to_itself own (bind p f).
Proof.
  revert own. induction p; cbn; intros own Hp Hf;
    try solve [intuition eauto].
  intros l. apply H; [apply Hp|].
  intros r. eapply keeps_to_itself_mono; [|apply Hf]. cbn. tauto.
Qed.

Lemma update_lookup known b d (m : list (list byte)) new :
  (forall b' d', known b' = Some d' -> m !! b' = Some d') ->
  known b = Some d ->
  forall b' d', update known b new b' = Some d' ->
    <[b := new]> m !! b' = Some d'.
Proof.
  intros Hk Hb b' d'. unfold update. destruct (decide (b' = b)) as [->|Hne].
  - intros [= <-]. apply list_lookup_insert_eq.
    eapply lookup_lt_Some. eauto.
  - intros H. rewrite list_lookup_insert_ne by done. eauto.
Qed.

Lemma update_own known (own : slice -> Prop) b d new (x : nat) :
  (forall b', own b' -> (b' < x)%nat /\ known b' = None) ->
  known b = Some d ->
  forall b', own b' -> (b' < x)%nat /\ update known b new b' = None.
Proof.
  intros Ho Hb b' Hb'. destruct (Ho b' Hb') as [Hlt Hn]. split; [done|].
  unfold update. destruct (decide (b' = b)) as [->|]; [congruence | done].
Qed.

(** One operation of the caller. *)
Lemma step_sends {R} known frames (own : slice -> Prop) s (p : go R) s' p'
    (Q : (slice -> option (list byte)) -> list (list byte) -> R -> Prop) :
  sends known frames p Q ->
  (forall b d, known b = Some d -> mem s !! b = Some d) ->
  (forall b, own b -> (b < length (mem s))%nat /\ known b = None) ->
  step s p = Some (s', p') ->
  exists known' frames',
    sends known' frames' p' Q /\
    (forall b d, known' b = Some d -> mem s' !! b = Some d) /\
    (forall b, own b -> (b < length (mem s'))%nat /\ known' b = None) /\
    written (trace s') ++ frames' = written (trace s) ++ frames.
Proof.
  intros Hp Hk Ho Hstep.
  destruct p; cbn in Hp; cbn [step] in Hstep; try done.
  - (* Make *)
    simplify_eq.
    assert (known (length (mem s)) = None) as Hfresh.
    { destruct (known (length (mem s))) as [d|] eqn:E; [|done].
      apply Hk, lookup_lt_Some in E. lia. }
    exists (update known (length (mem s)) (replicate n x00)), frames.
    split; [by apply Hp|]. cbn [mem trace set_mem].
    split; [|split; [|done]].
    + intros b d. unfold update.
      destruct (decide (b = length (mem s))) as [->|Hne].
      * intros [= <-]. apply lookup_fresh.
      * intros H. by apply lookup_old, Hk.
    + intros b Hb. destruct (Ho b Hb) as [Hlt Hn].
      rewrite length_app. split; [lia|].
      unfold update. destruct (decide (b = length (mem s))); [lia | done].
  - (* Copy *)
    destruct (known dst) as [d|] eqn:Hd; [|done].
    destruct (known src) as [c|] eqn:Hc; [|done].
    rewrite (Hk _ _ Hd), (Hk _ _ Hc) in Hstep. simplify_eq.
    eexists _, frames. split; [exact Hp|]. cbn [mem trace set_mem].
    split; [|split; [|done]].
    + by eapply update_lookup.
    + rewrite length_insert. by eapply update_own.
  - (* Store *)
    destruct (known s0) as [d|] eqn:Hd; [|done].
    rewrite (Hk _ _ Hd) in Hstep.
    destruct (i <? length d)%nat; simplify_eq.
    + eexists _, frames. split; [exact Hp|]. cbn [mem trace set_mem].
      split; [|split; [|done]].
      * by eapply update_lookup.
      * rewrite length_insert. by eapply update_own.
    + by exists known, frames.
  - (* Index *)
    destruct (mem s !! s0) as [d|]; [|done].
    destruct (d !! i); simplify_eq; by exists known, frames.
  - (* Len *)
    destruct (mem s !! s0) as [d|]; simplify_eq. by exists known, frames.
  - (* ConnWrite *)
    destruct frames as [|f rest]; [done|]. destruct Hp as [Hb Hrest].
    rewrite (Hk _ _ Hb) in Hstep.
    destruct (next_write (conn s) (length f)) as [[n e] c]. simplify_eq.
    exists known, rest. split; [apply Hrest|].
    cbn [mem trace log set_conn]. split; [done|]. split; [done|].
    rewrite written_log. by rewrite <- app_assoc.
  - (* SendSw *)
    destruct (chan_send (sw s) true); simplify_eq.
    exists known, frames. cbn [mem trace log set_sw].
    rewrite written_log, app_nil_r. done.
  - (* SelectSw *)
    destruct (sw s); simplify_eq.
    + exists known, frames. tauto.
    + exists known, frames. cbn [mem trace log set_sw].
      rewrite written_log, app_nil_r. tauto.
  - (* SendResponses *)
    destruct (chan_send (responses s) s0); simplify_eq.
    exists known, frames. cbn [mem trace log set_responses].
    rewrite written_log, app_nil_r. done.
  - (* RecvResponses *)
    destruct (responses s); simplify_eq. exists known, frames.
    cbn [mem trace set_responses]. by split; [apply Hp|].
  - (* SendPublic *)
    destruct (chan_send (Responses s) s0); simplify_eq.
    exists known, frames. cbn [mem trace log set_Responses].
    rewrite written_log, app_nil_r. done.
  - (* SendErr *)
    destruct (chan_send (err s) e); simplify_eq.
    exists known, frames. cbn [mem trace log set_err].
    rewrite written_log, app_nil_r. done.
Qed.

(** One operation of the receive loop. *)
Lemma step_keeps {R} (known : slice -> option (list byte))
    (own : slice -> Prop) s (p : go R) s' p' :
  keeps_to_itself own p ->
  (forall b d, known b = Some d -> mem s !! b = Some d) ->
  (forall b, own b -> (b < length (mem s))%nat /\ known b = None) ->
  step s p = Some (s', p') ->
  exists own' : slice -> Prop,
    keeps_to_itself own' p' /\
    (forall b d, known b = Some d -> mem s' !! b = Some d) /\
    (forall b, own' b -> (b < length (mem s'))%nat /\ known b = None) /\
    written (trace s') = written (trace s).
Proof.
  intros Hp Hk Ho Hstep.
  assert (forall b new,
            own b -> forall b' d, known b' = Some d ->
            <[b := new]> (mem s) !! b' = Some d) as Hins.
  { intros b new Hb b' d Hd. destruct (Ho b Hb) as [_ Hn].
    rewrite list_lookup_insert_ne by congruence. eauto. }
  destruct p; cbn in Hp; cbn [step] in Hstep; try done.
  - (* Make *)
    simplify_eq. exists (fun b => b = length (mem s) \/ own b).
    split; [apply Hp|]. cbn [mem trace set_mem].
    split; [|split; [|done]].
    + intros b d Hd. by apply lookup_old, Hk.
    + intros b [->|Hb]; rewrite length_app; cbn [length].
      * split; [lia|].
        destruct (known (length (mem s))) as [d|] eqn:E; [|done].
        apply Hk, lookup_lt_Some in E. lia.
      * destruct (Ho b Hb). split; [lia | done].
  - (* Copy *)
    destruct (mem s !! dst) as [d|]; [|done].
    destruct (mem s !! src) as [c|]; simplify_eq.
    exists own. split; [tauto|]. cbn [mem trace set_mem].
    split; [apply Hins; tauto|]. rewrite length_insert. by split.
  - (* Store *)
    destruct (mem s !! s0) as [d|]; [|done].
    destruct (i <? length d)%nat; simplify_eq.
    + exists own. split; [tauto|]. cbn [mem trace set_mem].
      split; [apply Hins; tauto|]. rewrite length_insert. by split.
    + by exists own.
  - (* Index *)
    destruct (mem s !! s0) as [d|]; [|done].
    destruct (d !! i); simplify_eq; by exists own.
  - (* Len *)
    destruct (mem s !! s0) as [d|]; simplify_eq. by exists own.
  - (* ConnRead *)
    destruct (mem s !! b) as [d|]; [|done].
    destruct (incoming (conn s)) as [|[data e] rest]; simplify_eq.
    exists own. split; [apply Hp|]. cbn [mem trace log set_conn set_mem].
    split; [apply Hins; tauto|]. rewrite length_insert.
    split; [done|]. by rewrite written_log, app_nil_r.
  - (* SendSw *)
    destruct (chan_send (sw s) true); simplify_eq.
    exists own. cbn [mem trace log set_sw].
    by rewrite written_log, app_nil_r.
  - (* SelectSw *)
    destruct (sw s); simplify_eq.
    + exists own. tauto.
    + exists own. cbn [mem trace log set_sw].
      rewrite written_log, app_nil_r. tauto.
  - (* SendResponses *)
    destruct (chan_send (responses s) s0); simplify_eq.
    exists own. cbn [mem trace log set_responses].
    by rewrite written_log, app_nil_r.
  - (* RecvResponses *)
    destruct (responses s); simplify_eq. exists own.
    cbn [mem trace set_responses]. by split; [apply Hp|].
  - (* SendPublic *)
    destruct (chan_send (Responses s) s0); simplify_eq.
    exists own. cbn [mem trace log set_Responses].
    by rewrite written_log, app_nil_r.
  - (* SendErr *)
    destruct (chan_send (err s) e); simplify_eq.
    exists own. cbn [mem trace log set_err].
    by rewrite written_log, app_nil_r.
  - (* Loop *)
    simplify_eq. exists own. split; [|done].
    destruct Hp as [Hbody Hk']. apply keeps_to_itself_bind; [done|].
    by intros [].
Qed.

Lemma sys_step_wire all g c :
  wire_invariant all c -> wire_invariant all (sys_step g c).
Proof.
  intros (known & frames & own & Hc & Hr & Hk & Ho & Hw). destruct g; cbn.
  - destruct (step (shared c) (caller c)) as [[s' p']|] eqn:Hstep;
      [|by exists known, frames, own].
    destruct (step_sends _ _ _ _ _ _ _ _ Hc Hk Ho Hstep)
      as (known' & frames' & Hc' & Hk' & Ho' & Hw').
    exists known', frames', own. cbn [shared caller receiver].
    split; [done|]. split; [done|]. split; [done|]. split; [done|].
    congruence.
  - destruct (step (shared c) (receiver c)) as [[s' p']|] eqn:Hstep;
      [|by exists known, frames, own].
    destruct (step_keeps _ _ _ _ _ _ Hr Hk Ho Hstep)
      as (own' & Hr' & Hk' & Ho' & Hw').
    exists known, frames, own'. cbn [shared caller receiver].
    split; [done|]. split; [done|]. split; [done|]. split; [done|].
    congruence.
Qed.

Lemma exec_wire all schedule c :
  wire_invariant all c -> wire_invariant all (exec schedule c).
Proof.
  revert c. induction schedule as [|g schedule IH]; intros c Hc; [done|].
  cbn. apply IH. by apply sys_step_wire.
Qed.

Lemma update_eq known b d : update known b d b = Some d.
Proof. unfold update. by rewrite decide_True. Qed.

Lemma update_ne known b d b' : b' <> b -> update known b d b' = known b'.
Proof. intros H. unfold update. by rewrite decide_False. Qed.

Lemma update_has_templates known l d :
  known l = None -> has_templates known -> has_templates (update known l d).
Proof.
  intros Hl Ht b tmpl Hb. rewrite update_ne; [by apply Ht|].
  intros ->. apply Ht in Hb. congruence.
Qed.

Lemma injectInputToPayload_sends known fs payload tmpl input
    (Q : (slice -> option (list byte)) -> list (list byte) -> slice -> Prop) :
  known payload = Some tmpl ->
  (forall l k', known l = None ->
     k' l = Some (encode tmpl input) ->
     (forall b, b <> l -> k' b = known b) ->
     Q k' fs l) ->
  sends known fs (injectInputToPayload payload input) Q.
Proof.
  intros Hp HQ. unfold injectInputToPayload. norm. cbn [sends].
  intros l Hl.
  assert (payload <> l) as Hne by congruence.
  rewrite update_eq, (update_ne _ _ _ _ Hne), Hp. cbn zeta.
  rewrite update_eq. apply HQ; [done | apply update_eq |].
  intros b Hb. by rewrite !update_ne.
Qed.

Lemma send_sends known f fs command :
  known command = Some f ->
  sends known (f :: fs) (send command) (fun k' f' _ => k' = known /\ f' = fs).
Proof.
  intros Hc. unfold send. norm. cbn [sends]. split; [done|].
  intros n [e|]; cbn [sends]; [done|]. by destruct (negb (n =? 6)).
Qed.

Lemma extractInput_sends known fs response :
  sends known fs (extractInput response) (fun k' f' _ => k' = known /\ f' = fs).
Proof.
  unfold extractInput, isValidOutput, and_then, index_is, index. norm.
  cbn [sends].
  repeat (intros ?; match goal with
                    | |- context [if Byte.eqb ?a ?b then _ else _] =>
                        destruct (Byte.eqb a b)
                    end; norm; cbn [sends]; try done).
  intros b5 b4. destruct (Byte.eqb _ _); cbn [sends]; done.
Qed.

Lemma await_sends known fs :
  sends known fs (response ← recv_responses; extractInput response)
    (fun k' f' _ => k' = known /\ f' = fs).
Proof.
  change (forall l, sends known fs (extractInput l)
                      (fun k' f' _ => k' = known /\ f' = fs)).
  intros l. apply extractInput_sends.
Qed.

Lemma request_sends known f fs command :
  known command = Some f ->
  sends known (f :: fs)
    (send command;; response ← recv_responses; extractInput response)
    (fun k' f' _ => k' = known /\ f' = fs).
Proof.
  intros Hc. apply sends_bind.
  eapply sends_mono; [|by apply send_sends].
  intros k' f' _ [-> ->]. apply await_sends.
Qed.

Lemma parameter_call_sends known tmpl fs payload input (check : bool) refuse :
  has_templates known ->
  known payload = Some tmpl ->
  check = false ->
  sends known (encode tmpl input :: fs)
    (if check then Ret refuse
     else command ← injectInputToPayload payload input;
          send command;; response ← recv_responses; extractInput response)
    (fun k' f' _ => has_templates k' /\ f' = fs).
Proof.
  intros Ht Hp ->. apply sends_bind.
  apply (injectInputToPayload_sends known _ payload tmpl input); [done|].
  intros l k' Hl Hk' Hother.
  eapply sends_mono; [|by apply request_sends].
  intros k'' f' _ [-> ->]. split; [|done].
  intros b t Hb. rewrite Hother; [by apply Ht|].
  intros ->. apply Ht in Hb. congruence.
Qed.

Lemma call_sends known fs op :
  has_templates known ->
  sends known (frame_of op :: fs) (call op)
    (fun k' f' _ => has_templates k' /\ f' = fs).
Proof.
  intros Ht.
  assert (forall command f,
            globals !! command = Some f ->
            sends known (f :: fs) (send command;; Ret tt)
              (fun k' f' _ => has_templates k' /\ f' = fs)) as Hsend.
  { intros command f Hc. apply sends_bind.
    eapply sends_mono; [|apply send_sends; by apply Ht].
    by intros k' f' _ [-> ->]. }
  destruct op; cbn [call frame_of]; try (by apply Hsend).
  - apply sends_bind.
    eapply sends_mono;
      [|apply (parameter_call_sends known [xaa; xbb; x03; x01; x00; xee]);
        [done | by apply Ht | apply range_check_never_fails; lia]].
    by intros k' f' _ [? ->].
  - apply sends_bind.
    eapply sends_mono;
      [|apply (parameter_call_sends known [xaa; xbb; x03; x10; x00; xee]);
        [done | by apply Ht | apply range_check_never_fails; lia]].
    by intros k' f' _ [? ->].
  - apply sends_bind.
    eapply sends_mono; [|apply request_sends; by apply Ht].
    by intros k' f' _ [-> ->].
Qed.

Lemma client_sends known ops :
  has_templates known ->
  sends known (map frame_of ops) (client ops) (fun _ _ _ => True).
Proof.
  revert known. induction ops as [|op ops IH]; intros known Ht; [done|].
  cbn [client foldr map]. apply sends_bind.
  eapply sends_mono; [|by apply call_sends].
  intros k' f' _ [Ht' ->]. by apply IH.
Qed.

Lemma receiveLoop_keeps_to_itself : keeps_to_itself (fun _ => False) receiveLoop.
Proof.
  cbn. split; [|done]. intros l. split; [by left|].
  intros n [e|]; by cbn.
Qed.

(** X16. What goes out on the connection is the frames of the calls, in
    the order of the calls and one for each call: under every schedule
    and whatever the connection answers or delivers, the byte strings
    handed to [Write] so far are a prefix of the frames of the calls the
    client makes.  The receive loop never writes to the connection, and
    no buffer is changed between being built and being written. *)
Theorem wire_in_call_order (ops : list operation) (schedule : list goroutine)
    (conn0 : connection) :
  written (trace (shared (exec schedule
             (mkSystem (connected conn0) (client ops) receiveLoop))))
    `prefix_of` map frame_of ops.
Proof.
  destruct (exec_wire (map frame_of ops) schedule
              (mkSystem (connected conn0) (client ops) receiveLoop))
    as (known & frames & own & _ & _ & _ & _ & Hw).
  - exists (fun b => globals !! b), (map frame_of ops), (fun _ => False).
    split; [apply client_sends; by intros b t|].
    split; [apply receiveLoop_keeps_to_itself|].
    split; [done|]. split; [done|]. reflexivity.
  - by exists frames.
Qed.


(** * Replies and callers *)

(** X17. A reply is matched to a caller by arrival alone.  When a frame
    is already waiting in [responses], [GetCurrentInput] writes its query,
    sets its marker and returns at once with what the waiting frame
    decodes to; its own reply has not even been read, and its marker
    stays behind for the next frame. *)
Theorem waiting_frame_is_returned (s : state) (b : slice)
    (frame : list byte) (others : list slice) :
  take 8 (mem s) = globals ->
  outgoing (conn s) = [] ->
  sw s = [] ->
  responses s = b :: others ->
  mem s !! b = Some frame ->
  length frame = 6%nat ->
  exists s',
    steps s GetCurrentInput s' (Ret (decode_frame frame)) /\
    sw s' = [true] /\
    responses s' = others /\
    incoming (conn s') = incoming (conn s) /\
    trace s'
      = trace s ++ [Written [xaa; xbb; x03; x10; x00; xee] 6 None; MarkerSet].
Proof.
  intros Ht Ho Hsw Hresp Hb Hl.
  eexists. split; [|split; [|split; [|split]]].
  - eapply steps_trans.
    { apply (send_accepted s GET_CURRENT_INPUT [xaa; xbb; x03; x10; x00; xee]);
        auto. by apply template_loaded. }
    eapply steps_step.
    { norm. cbn [step responses log set_sw]. rewrite Hresp. reflexivity. }
    norm. by apply extractInput_decodes.
  - reflexivity.
  - reflexivity.
  - reflexivity.
  - cbn [trace set_responses log set_sw]. by rewrite <- app_assoc.
Qed.

Lemma waiting_frame_is_returned_witness :
  exists s',
    steps stale_response GetCurrentInput s' (Ret (7, None)) /\
    sw s' = [true] /\
    responses s' = [] /\
    incoming (conn s') = [] /\
    trace s' = [Written [xaa; xbb; x03; x10; x00; xee] 6 None; MarkerSet].
Proof.
  exact (waiting_frame_is_returned stale_response 8%nat (status_frame x06) []
           eq_refl eq_refl eq_refl eq_refl eq_refl eq_refl).
Defined.

(** X18. Unsolicited frames have to be taken from [Responses].  When
    the one slot of [Responses] is full and a frame comes in with no
    marker set, the receive loop reads it and then waits on the send to
    [Responses]; it reads nothing more from the connection until somebody
    receives from [Responses]. *)
Theorem observer_must_drain (s : state) (data : list byte)
    (rest : list (list byte * option error)) (pending : slice) :
  incoming (conn s) = (data, None) :: rest ->
  sw s = [] ->
  Responses s = [pending] ->
  exists s',
    steps s receiveLoop s' (SendPublic (length (mem s)) receiveLoop) /\
    waiting s' (SendPublic (length (mem s)) receiveLoop) /\
    incoming (conn s') = rest /\
    Responses s' = [pending] /\
    responses s' = responses s.
Proof.
  intros Hin Hsw Hpub.
  eexists. split; [|split; [|split; [|split]]].
  - eapply steps_trans; [exact (receiveLoop_reads s data None rest Hin)|].
    eapply steps_step; [|apply steps_refl].
    cbn [step sw log set_conn set_mem]. rewrite Hsw. reflexivity.
  - split; [|exact I]. cbn [step Responses log set_conn set_mem].
    by rewrite Hpub.
  - reflexivity.
  - exact Hpub.
  - reflexivity.
Qed.

Lemma observer_must_drain_witness :
  exists s',
    steps undrained receiveLoop s' (SendPublic 9 receiveLoop) /\
    waiting s' (SendPublic 9 receiveLoop) /\
    incoming (conn s') = [] /\
    Responses s' = [8%nat] /\
    responses s' = [].
Proof.
  exact (observer_must_drain undrained (status_frame x01) [] 8%nat
           eq_refl eq_refl eq_refl).
Defined.
